(** * HexaLayout evaluation utilities (utils.py): a shallow embedding

    The development follows utils.py function by function:
    - [RandomBatchSampler] ([__iter__], [__len__]),
    - [bounding_box_to_matrix_image] (the rasteriser),
    - [compute_bbox_matrix_iou] (the grid IoU metric),
    - [get_ts_for_batch_binary] and [evaluation].

    Python integers are [Z]; Python lists and numpy arrays are lists (a
    two-dimensional array is a list of rows); an exception is [None] in
    the [option] monad.  World coordinates are exact rationals ([Q]).
    Scores are kept abstract behind the class [Arith], so that the
    statements hold for any arithmetic that provides the operations the
    code uses. *)

From Stdlib Require Import ZArith QArith Qminmax Qround Qcanon Lia.
From stdpp Require Import base option list sets gmap.

Local Open Scope Z_scope.

(** ** Python basics *)

(** [range(a, b)] *)
Definition py_range (a b : Z) : list Z :=
  (λ k : nat, a + Z.of_nat k) <$> seq 0 (Z.to_nat (b - a)).

(** [seq[k]] for a Python integer [k]: a negative index counts from the
    end, an index outside [-n, n) raises IndexError. *)
Definition py_index (n : nat) (k : Z) : option nat :=
  if (0 <=? k) && (k <? Z.of_nat n) then Some (Z.to_nat k)
  else if (- Z.of_nat n <=? k) && (k <? 0) then Some (Z.to_nat (Z.of_nat n + k))
  else None.

(** ** Arithmetic on scores

    [of_int] is the conversion of an integer to a score (float(k)),
    [fadd] and [fdiv] are + and / on scores, [is_nan] recognises the
    missing score. *)
Class Arith (F : Type) := {
  of_int : Z → F;
  fadd : F → F → F;
  fdiv : F → F → F;
  is_nan : F → bool
}.

(** The laws the IoU of identical grids needs: a non-zero count divided
    by itself is one, and counting up by one from a small count is exact.
    Exact rationals satisfy them, and so does binary64 on counts below
    2^53. *)
Class ArithLaws (F : Type) `{Arith F} : Prop := {
  fdiv_diag : ∀ k, 0 < k → fdiv (of_int k) (of_int k) = of_int 1;
  fadd_succ : ∀ k, 0 <= k < 2 ^ 53 → fadd (of_int k) (of_int 1) = of_int (k + 1)
}.

(** Exact rational scores, in canonical form so that equal scores are
    equal terms; division by zero is the missing score, encoded as [None]. *)
Definition QScore := option Qc.

Definition qs_div (a b : QScore) : QScore :=
  match a, b with
  | Some x, Some y => if decide (y = 0%Qc) then None else Some (x / y)%Qc
  | _, _ => None
  end.

Definition qs_add (a b : QScore) : QScore :=
  match a, b with
  | Some x, Some y => Some (x + y)%Qc
  | _, _ => None
  end.

#[global] Instance QScore_arith : Arith QScore := {
  of_int k := Some (Q2Qc (inject_Z k));
  fadd := qs_add;
  fdiv := qs_div;
  is_nan s := match s with None => true | Some _ => false end
}.

(** ** compute_bbox_matrix_iou *)

Abbreviation grid := (list (list Z)).
Abbreviation mask := (list (list bool)).

(** [arr != c] *)
Definition ne_mask (g : grid) (c : Z) : mask :=
  (λ row : list Z, (λ x, negb (x =? c)) <$> row) <$> g.

(** [m.sum()] of a boolean array: the number of True cells. *)
Definition row_sum (row : list bool) : Z :=
  foldr (λ b n, Z.b2z b + n) 0 row.
Definition mask_sum (m : mask) : Z :=
  foldr (λ row n, row_sum row + n) 0 m.

(** [np.logical_and(m1, m2)] on arrays of one shape. *)
Definition logical_and (m1 m2 : mask) : mask :=
  zip_with (zip_with andb) m1 m2.

Definition same_shape {A B} (g1 : list (list A)) (g2 : list (list B)) : Prop :=
  Forall2 (λ r1 r2, length r1 = length r2) g1 g2.

(** [g.size]: the number of cells. *)
Definition cell_count {A} (g : list (list A)) : Z :=
  foldr (λ row n, Z.of_nat (length row) + n) 0 g.

Section IoU.
Context {F : Type} `{Arith F}.

Definition labels_c_sum (labels : grid) (c : Z) : Z := mask_sum (ne_mask labels c).
Definition pred_c_sum (predictions : grid) (c : Z) : Z := mask_sum (ne_mask predictions c).
Definition intersect (labels predictions : grid) (c : Z) : Z :=
  mask_sum (logical_and (ne_mask labels c) (ne_mask predictions c)).
Definition union (labels predictions : grid) (c : Z) : Z :=
  labels_c_sum labels c + pred_c_sum predictions c - intersect labels predictions c.

(** The test of line 189. *)
Definition class_seen (labels predictions : grid) (c : Z) : bool :=
  (0 <? labels_c_sum labels c) || (0 <? pred_c_sum predictions c).

Record iou_state := IouState { mean_iou : F; seen_classes : Z }.

(** One turn of the loop over the classes. *)
Definition iou_step (labels predictions : grid) (st : iou_state) (c : Z) : iou_state :=
  if class_seen labels predictions c then
    {| mean_iou := fadd (mean_iou st)
                        (fdiv (of_int (intersect labels predictions c))
                              (of_int (union labels predictions c)));
       seen_classes := seen_classes st + 1 |}
  else st.

Definition iou_loop (labels predictions : grid) (n_classes : Z) : iou_state :=
  fold_left (iou_step labels predictions) (py_range 0 n_classes)
            {| mean_iou := of_int 0; seen_classes := 0 |}.

Definition compute_bbox_matrix_iou (labels predictions : grid) (n_classes : Z) : F :=
  let st := iou_loop labels predictions n_classes in
  if seen_classes st =? 0 then of_int 0
  else fdiv (mean_iou st) (of_int (seen_classes st)).

End IoU.

(** *** The reference definition of the metric

    The presence mask of class [c] is the set of the positions
    (row, column) of the cells that differ from [c]; everything else is
    said with set operations and cardinals. *)
Module IouRef.

Fixpoint row_presence (c : Z) (i j : nat) (row : list Z) : gset (nat * nat) :=
  match row with
  | [] => ∅
  | x :: row' =>
      (if decide (x ≠ c) then {[ (i, j) ]} else ∅) ∪ row_presence c i (S j) row'
  end.

Fixpoint presence_from (c : Z) (i : nat) (g : grid) : gset (nat * nat) :=
  match g with
  | [] => ∅
  | row :: g' => row_presence c i 0 row ∪ presence_from c (S i) g'
  end.

Definition presence_mask (g : grid) (c : Z) : gset (nat * nat) :=
  presence_from c 0 g.

Definition seen (g1 g2 : grid) (c : Z) : Prop :=
  presence_mask g1 c ≠ ∅ ∨ presence_mask g2 c ≠ ∅.

Section Mean.
Context {F : Type} `{Arith F}.

Definition class_iou (g1 g2 : grid) (c : Z) : F :=
  let m1 := presence_mask g1 c in
  let m2 := presence_mask g2 c in
  let inter := Z.of_nat (size (m1 ∩ m2)) in
  fdiv (of_int inter)
       (of_int (Z.of_nat (size m1) + Z.of_nat (size m2) - inter)).

Definition mean_iou_ref (g1 g2 : grid) (n_classes : Z) : F :=
  let classes := filter (seen g1 g2) (py_range 0 n_classes) in
  let total := fold_left fadd (class_iou g1 g2 <$> classes) (of_int 0) in
  match classes with
  | [] => of_int 0
  | _ => fdiv total (of_int (Z.of_nat (length classes)))
  end.
End Mean.

End IouRef.

(** ** RandomBatchSampler *)

Record RandomBatchSampler (A : Type) := {
  sampler : list A;
  batch_size : Z;
  drop_last : bool
}.
Arguments sampler {A} _.
Arguments batch_size {A} _.
Arguments drop_last {A} _.

(** [a // b] *)
Definition py_floordiv (a b : Z) : option Z :=
  if b =? 0 then None else Some (a / b).

Section Sampler.
Context {A : Type}.

(** One turn of the loop of lines 31-35 on the state
    [(all_batches, batch)]. *)
Definition collect_step (self : RandomBatchSampler A)
    (st : list (list A) * list A) (idx : A) : list (list A) * list A :=
  let batch := st.2 ++ [idx] in
  if Z.of_nat (length batch) =? batch_size self
  then (st.1 ++ [batch], [])
  else (st.1, batch).

(** [all_batches] when line 39 is reached. *)
Definition all_batches (self : RandomBatchSampler A) : list (list A) :=
  let st := fold_left (collect_step self) (sampler self) ([], []) in
  if (0 <? Z.of_nat (length st.2)) && negb (drop_last self)
  then st.1 ++ [st.2]
  else st.1.

(** One traversal: [rand_index] is the list that
    [torch.randperm(len(all_batches)).tolist()] returned, the result is
    the sequence of the batches yielded. *)
Definition iter (self : RandomBatchSampler A) (rand_index : list nat)
    : option (list (list A)) :=
  mapM (λ index, all_batches self !! index) rand_index.

Definition len (self : RandomBatchSampler A) : option Z :=
  if drop_last self
  then py_floordiv (Z.of_nat (length (sampler self))) (batch_size self)
  else py_floordiv (Z.of_nat (length (sampler self)) + batch_size self - 1)
                   (batch_size self).

(** The reference partition: chunk [k] is the [b] elements from
    position [k * b] on; the last, shorter chunk is kept or not. *)
Definition chunk (b : nat) (l : list A) (k : nat) : list A :=
  take b (drop (k * b) l).

Definition div_ceil (n b : nat) : nat :=
  (n / b + (if (n mod b =? 0)%nat then 0 else 1))%nat.

Definition partition_ref (b : nat) (keep_partial : bool) (l : list A)
    : list (list A) :=
  chunk b l <$> seq 0 (if keep_partial then div_ceil (length l) b
                       else (length l / b)%nat).
End Sampler.

(** ** bounding_box_to_matrix_image *)

(** Sequencing a loop whose body may raise. *)
Fixpoint foldlM {S X : Type} (f : S → X → option S) (l : list X) (s : S)
    : option S :=
  match l with
  | [] => Some s
  | x :: l' => s' ← f s x; foldlM f l' s'
  end.

(** A box is a 2 x k array of world coordinates; a target holds the
    boxes and their categories. *)
Record Box := { row0 : list Q; row1 : list Q }.
Record Target := { bounding_box : list Box; category : list Z }.

(** [bb * 10 + 400] on one coordinate *)
Definition to_grid (q : Q) : Q := (q * 10 + 400)%Q.

(** [.min()] and [.max()] of a row; numpy raises on an empty one. *)
Definition row_min (l : list Q) : option Q :=
  match l with [] => None | x :: l' => Some (foldl Qmin x l') end.
Definition row_max (l : list Q) : option Q :=
  match l with [] => None | x :: l' => Some (foldl Qmax x l') end.

Record Rect := { min_y : Z; min_x : Z; max_y : Z; max_x : Z }.

(** Lines 166-167, after the [int(...)] of lines 169-170. *)
Definition box_rect (bb : Box) : option Rect :=
  lo0 ← row_min (to_grid <$> row0 bb);
  lo1 ← row_min (to_grid <$> row1 bb);
  hi0 ← row_max (to_grid <$> row0 bb);
  hi1 ← row_max (to_grid <$> row1 bb);
  Some {| min_y := Qfloor lo0; min_x := Qfloor lo1;
          max_y := Qceiling hi0; max_x := Qceiling hi1 |}.

(** [lo] is the floor of the least and [hi] the ceiling of the greatest
    transformed coordinate of [row]. *)
Definition floor_ceil_of (row : list Q) (lo hi : Z) : Prop :=
  (∀ q, q ∈ row → (inject_Z lo <= to_grid q <= inject_Z hi)%Q) ∧
  (∃ q, q ∈ row ∧ (to_grid q < inject_Z (lo + 1))%Q) ∧
  (∃ q, q ∈ row ∧ (inject_Z (hi - 1) < to_grid q)%Q).

(** [bounding_box_map[-i][j] = label] *)
Definition set_cell (label : Z) (m : grid) (i j : Z) : option grid :=
  r ← py_index (length m) (- i);
  row ← m !! r;
  c ← py_index (length row) j;
  Some (<[r := <[c := label]> row]> m).

(** Lines 169-171 for one box. *)
Definition stamp (label : Z) (rc : Rect) (m : grid) : option grid :=
  foldlM (λ m i, foldlM (λ m j, set_cell label m i j)
                        (py_range (min_y rc) (max_y rc)) m)
         (py_range (min_x rc) (max_x rc)) m.

Definition background : grid := replicate 800 (replicate 800 9).

Definition bounding_box_to_matrix_image (one_target : Target) : option grid :=
  foldlM (λ m '(idx, bb),
            label ← category one_target !! idx;
            rc ← box_rect bb;
            stamp label rc m)
         (zip (seq 0 (length (bounding_box one_target))) (bounding_box one_target))
         background.

(** A cell of a grid, and the cells a rectangle stamps: row [-i] and
    column [j] for [i], [j] in the rectangle. *)
Definition cell {X} (m : list (list X)) (r c : nat) : option X :=
  row ← m !! r; row !! c.

Definition in_stamp (rc : Rect) (r c : nat) : Prop :=
  ∃ i j, min_x rc <= i < max_x rc ∧ min_y rc <= j < max_y rc ∧
         py_index 800 (- i) = Some r ∧ py_index 800 j = Some c.

Definition in_bounds (rc : Rect) : Prop :=
  0 <= min_x rc ∧ max_x rc <= 800 ∧ 0 <= min_y rc ∧ max_y rc <= 800.

(** The index pairs [(i, j)] that lines 169-171 visit, in their order,
    and the cells they write. *)
Definition writes (rc : Rect) : list (Z * Z) :=
  i ← py_range (min_x rc) (max_x rc);
  j ← py_range (min_y rc) (max_y rc);
  [(i, j)].

Definition hits (h w : nat) (r c : nat) (p : Z * Z) : Prop :=
  py_index h (- p.1) = Some r ∧ py_index w p.2 = Some c.

Definition stamped (rc : Rect) (r c : nat) : Prop :=
  Exists (hits 800 800 r c) (writes rc).

(** An array of [h] rows of [w] cells. *)
Definition shaped {X} (h w : nat) (m : list (list X)) : Prop :=
  length m = h ∧ Forall (λ row, length row = w) m.

(** The number of cells of a grid that hold [v]. *)
Definition count_label (v : Z) (m : grid) : Z :=
  foldr (λ row n, Z.of_nat (length (filter (λ x, x = v) row)) + n) 0 m.

(** ** get_ts_for_batch_binary *)

(** [t.view(-1, w)] on the flat, row-major contents of a tensor. *)
Definition reshape {X} (w : nat) (flat : list X) : list (list X) :=
  (λ k, take w (drop (k * w) flat)) <$> seq 0 (length flat / w)%nat.

(** [t.view(-1, 800, 800)]: refused unless the length is a multiple of
    800 * 800. *)
Definition view_800 {X} (flat : list X) : option (list (list (list X))) :=
  if (Z.of_nat (length flat) mod (800 * 800) =? 0)
  then Some (reshape 800 (reshape 800 flat))
  else None.

Section ThreatScore.
Context {S T : Type}.
(** [x > 0.5] on a score of the model, and helper.compute_ts_road_map,
    which is not part of utils.py. *)
Context (gt_half : S → bool) (compute_ts_road_map : mask → mask → T).

Definition get_ts_for_batch_binary (model_output : list S)
    (road_image : list mask) : option (list T * list mask) :=
  predicted_road_map ← view_800 (gt_half <$> model_output);
  batch_ts ← foldlM (λ batch_ts batch_index,
                       p ← predicted_road_map !! batch_index;
                       t ← road_image !! batch_index;
                       Some (batch_ts ++ [compute_ts_road_map p t]))
                    (seq 0 (length road_image)) [];
  Some (batch_ts, predicted_road_map).
End ThreatScore.

(** ** evaluation *)

(** [np.mean] and [np.nanmean] of a list of scores. *)
Definition mean {F} `{Arith F} (l : list F) : F :=
  fdiv (fold_left fadd l (of_int 0)) (of_int (Z.of_nat (length l))).
Definition nanmean {F} `{Arith F} (l : list F) : F :=
  mean (filter (λ x, is_nan x = false) l).

Record Batch (Img Extra : Type) := {
  sample : list (list Img);
  target : Target;
  road_image : list mask;
  extra : Extra
}.
Arguments sample {Img Extra} _.
Arguments target {Img Extra} _.
Arguments road_image {Img Extra} _.

Section Evaluation.
Context {F : Type} `{Arith F} {S Img Extra Cam Out : Type}.
(** The collaborators of [evaluation]: the number of cameras, torch.stack,
    the model, the scores of its lane output, the arg-max over the
    classes of its box output, and the two helpers of above. *)
Context (num_images : nat)
        (stack : list Img → option Cam)
        (model : list Cam → bool → option Out)
        (scores_of : Out → list S)
        (argmax_classes : Out → grid)
        (gt_half : S → bool)
        (compute_ts_road_map : mask → mask → F).

(** Lines 69-79: what one batch contributes. *)
Definition batch_outputs (b : Batch Img Extra) : option (list F * list mask * F) :=
  single_cam_inputs ←
    mapM (λ i, imgs ← mapM (λ batch : list Img, batch !! i) (sample b); stack imgs)
         (seq 0 num_images);
  bbox_matrix ← bounding_box_to_matrix_image (target b);
  bev_lane_output ← model single_cam_inputs true;
  bev_bbox_output ← model single_cam_inputs false;
  r ← get_ts_for_batch_binary gt_half compute_ts_road_map
        (scores_of bev_lane_output) (road_image b);
  let bev_bbox_pred := argmax_classes bev_bbox_output in
  let mean_iou := compute_bbox_matrix_iou bbox_matrix bev_bbox_pred 10 in
  Some (r.1, r.2, mean_iou).

Record accumulators := {
  ts_list : list F;
  predicted_maps : list (list mask);
  iou_list : list F
}.

(** Lines 80-82. *)
Definition accumulate (acc : accumulators) (b : Batch Img Extra) : option accumulators :=
  o ← batch_outputs b;
  Some {| ts_list := ts_list acc ++ o.1.1;
          predicted_maps := predicted_maps acc ++ [o.1.2];
          iou_list := iou_list acc ++ [o.2] |}.

Definition evaluation (data_loader : list (Batch Img Extra))
    : option (F * list (list mask) * list F) :=
  acc ← foldlM accumulate data_loader
               {| ts_list := []; predicted_maps := []; iou_list := [] |};
  Some (nanmean (ts_list acc), predicted_maps acc, iou_list acc).
End Evaluation.

(** The rectangles whose every write is on a valid index. *)
Definition in_index_range (rc : Rect) : Prop :=
  - 800 < min_x rc ∧ max_x rc <= 801 ∧ - 800 <= min_y rc ∧ max_y rc <= 800.

(** The cell a pair of indices addresses. *)
Definition write_target (h w : nat) (p : Z * Z) : option nat * option nat :=
  (py_index h (- p.1), py_index w p.2).

(** ** get_ts_for_batch *)

(** [t.type(torch.BoolTensor)] on a tensor of class indices: a cell is
    True when its index is not zero. *)
Definition to_bool_tensor (g : grid) : mask := ne_mask g 0.

Section ThreatScoreArgmax.
Context {Out T : Type}.
(** [model_output.max(1)[1]]: for each sample, the grid of the indices of
    the class with the largest score (torch.max, which raises on a tensor
    without dimension 1), and helper.compute_ts_road_map. *)
Context (argmax_dim1 : Out → option (list grid))
        (compute_ts_road_map : mask → mask → T).

Definition get_ts_for_batch (model_output : Out) (road_image : list mask)
    : option (list T * list mask) :=
  indices ← argmax_dim1 model_output;
  let predicted_road_map : list mask := to_bool_tensor <$> (indices : list grid) in
  batch_ts ← foldlM (λ batch_ts batch_index,
                       p ← predicted_road_map !! batch_index;
                       t ← road_image !! batch_index;
                       Some (batch_ts ++ [compute_ts_road_map p t]))
                    (seq 0 (length road_image)) [];
  Some (batch_ts, predicted_road_map).
End ThreatScoreArgmax.

(** ** combine_six_to_one

    The samples are taken as 2-D tensors (the last two dimensions, which
    are the ones the function works on): rows of cells, with the width
    kept beside them as a tensor keeps its shape. *)
Record tensor2 (X : Type) := Tensor2 { t_width : nat; t_rows : list (list X) }.
Arguments Tensor2 {X} _ _.
Arguments t_width {X} _.
Arguments t_rows {X} _.

Definition t_height {X} (t : tensor2 X) : nat := length (t_rows t).

(** The rows of a tensor have its width. *)
Definition t_wf {X} (t : tensor2 X) : Prop :=
  Forall (λ row, length row = t_width t) (t_rows t).

(** [torch.cat(ts, dim=-1)]: the tensors side by side; raises on an empty
    list and on tensors of different heights. *)
Definition cat_last {X} (ts : list (tensor2 X)) : option (tensor2 X) :=
  match ts with
  | [] => None
  | t :: ts' =>
      foldlM (λ acc t',
                if decide (t_height acc = t_height t')
                then Some {| t_width := t_width acc + t_width t';
                             t_rows := zip_with app (t_rows acc) (t_rows t') |}
                else None)
             ts' t
  end.

(** [torch.cat(ts, dim=-2)]: the tensors one below the other; raises on
    an empty list and on tensors of different widths. *)
Definition cat_rows {X} (ts : list (tensor2 X)) : option (tensor2 X) :=
  match ts with
  | [] => None
  | t :: ts' =>
      foldlM (λ acc t',
                if decide (t_width acc = t_width t')
                then Some {| t_width := t_width acc;
                             t_rows := t_rows acc ++ t_rows t' |}
                else None)
             ts' t
  end.

(** [torch.flip(t, dims=(-2, -1))] *)
Definition flip {X} (t : tensor2 X) : tensor2 X :=
  {| t_width := t_width t; t_rows := reverse (reverse <$> t_rows t) |}.

(** [torch.rot90(t, k=3, dims=(-2, -1))]: the rows in reverse order,
    transposed. *)
Definition rot90_3 {X} (t : tensor2 X) : tensor2 X :=
  {| t_width := t_height t;
     t_rows := (λ i, omap (λ row : list X, row !! i) (reverse (t_rows t)))
               <$> seq 0 (t_width t) |}.

Definition combine_six_to_one {X} (samples : list (tensor2 X)) : option (tensor2 X) :=
  top ← cat_last (take 3 samples);
  bottom ← cat_last (flip <$> drop 3 samples);
  full ← cat_rows [top; bottom];
  Some (rot90_3 full).

(** * Properties *)

(** ** Python basics *)

Lemma py_range_length a b : length (py_range a b) = Z.to_nat (b - a).
Proof. unfold py_range. by rewrite length_fmap, length_seq. Qed.

Lemma elem_of_py_range a b k : k ∈ py_range a b ↔ a <= k < b.
Proof.
  unfold py_range. rewrite list_elem_of_fmap. split.
  - intros (n & -> & Hn). apply elem_of_seq in Hn. lia.
  - intros Hk. exists (Z.to_nat (k - a)). split; [lia|].
    apply elem_of_seq. lia.
Qed.

Lemma py_range_NoDup a b : NoDup (py_range a b).
Proof.
  unfold py_range. apply NoDup_fmap_2; [|apply NoDup_seq].
  intros x y Hxy. lia.
Qed.

Lemma py_index_nonneg n k :
  0 <= k < Z.of_nat n → py_index n k = Some (Z.to_nat k).
Proof.
  intros Hk. unfold py_index.
  destruct (0 <=? k) eqn:E1; [|lia]. destruct (k <? Z.of_nat n) eqn:E2; [done|lia].
Qed.

Lemma py_index_neg n k :
  - Z.of_nat n <= k < 0 → py_index n k = Some (Z.to_nat (Z.of_nat n + k)).
Proof.
  intros Hk. unfold py_index.
  destruct (0 <=? k) eqn:E1; [lia|]. simpl.
  destruct (- Z.of_nat n <=? k) eqn:E2; [|lia]. destruct (k <? 0) eqn:E3; [done|lia].
Qed.

Lemma py_index_lt n k r : py_index n k = Some r → (r < n)%nat.
Proof.
  unfold py_index. intros Hr.
  destruct (0 <=? k) eqn:E1, (k <? Z.of_nat n) eqn:E2; simpl in Hr;
    try (injection Hr as <-; lia);
    destruct (- Z.of_nat n <=? k) eqn:E3, (k <? 0) eqn:E4; simpl in Hr;
    try discriminate; injection Hr as <-; lia.
Qed.

(** ** Sums of masks *)

Lemma row_sum_nonneg row : 0 <= row_sum row.
Proof. induction row as [|[] row IH]; simpl; lia. Qed.

Lemma mask_sum_nonneg m : 0 <= mask_sum m.
Proof.
  induction m as [|row m IH]; simpl; [lia|].
  pose proof (row_sum_nonneg row). lia.
Qed.

Lemma row_sum_and_le r1 r2 :
  row_sum (zip_with andb r1 r2) <= row_sum r1 ∧
  row_sum (zip_with andb r1 r2) <= row_sum r2.
Proof.
  revert r2. induction r1 as [|b1 r1 IH]; intros [|b2 r2]; simpl.
  - lia.
  - pose proof (row_sum_nonneg r2). destruct b2; simpl; lia.
  - pose proof (row_sum_nonneg r1). destruct b1; simpl; lia.
  - destruct (IH r2). destruct b1, b2; simpl; lia.
Qed.

Lemma mask_sum_and_le m1 m2 :
  mask_sum (logical_and m1 m2) <= mask_sum m1 ∧
  mask_sum (logical_and m1 m2) <= mask_sum m2.
Proof.
  unfold logical_and. revert m2.
  induction m1 as [|r1 m1 IH]; intros [|r2 m2]; simpl.
  - lia.
  - pose proof (mask_sum_nonneg m2). pose proof (row_sum_nonneg r2). lia.
  - pose proof (mask_sum_nonneg m1). pose proof (row_sum_nonneg r1). lia.
  - destruct (IH m2). destruct (row_sum_and_le r1 r2). lia.
Qed.

Lemma row_sum_and_diag r : row_sum (zip_with andb r r) = row_sum r.
Proof. induction r as [|[] r IH]; simpl; congruence. Qed.

Lemma mask_sum_and_diag m : mask_sum (logical_and m m) = mask_sum m.
Proof.
  unfold logical_and. induction m as [|r m IH]; simpl; [done|].
  by rewrite row_sum_and_diag, IH.
Qed.

Lemma row_sum_cons b row : row_sum (b :: row) = Z.b2z b + row_sum row.
Proof. reflexivity. Qed.

Lemma mask_sum_cons row m : mask_sum (row :: m) = row_sum row + mask_sum m.
Proof. reflexivity. Qed.

Lemma ne_mask_cons row (g : grid) c :
  ne_mask (row :: g) c = ((λ x, negb (x =? c)) <$> row) :: ne_mask g c.
Proof. reflexivity. Qed.

(** A mask [g != c] sums to zero exactly when every cell of [g] is [c]. *)
Lemma row_sum_ne_zero (row : list Z) c :
  row_sum ((λ x, negb (x =? c)) <$> row) = 0 ↔ ∀ x, x ∈ row → x = c.
Proof.
  induction row as [|y row IH].
  - split; [intros _ x Hx; by apply elem_of_nil in Hx|done].
  - rewrite fmap_cons, row_sum_cons.
    pose proof (row_sum_nonneg ((λ x, negb (x =? c)) <$> row)) as Hge.
    split.
    + intros Hs x Hx. destruct (Z.eqb_spec y c) as [Hy|Hne]; simpl in Hs; [|lia].
      apply elem_of_cons in Hx as [->|Hx]; [done|]. apply IH; [lia|done].
    + intros Hall. rewrite (Hall y) by apply list_elem_of_here.
      rewrite Z.eqb_refl. simpl. apply IH. intros x Hx. apply Hall.
      by apply list_elem_of_further.
Qed.

Lemma mask_sum_ne_zero (g : grid) c :
  mask_sum (ne_mask g c) = 0 ↔ ∀ x, x ∈ concat g → x = c.
Proof.
  induction g as [|row g IH].
  - split; [intros _ x Hx; by apply elem_of_nil in Hx|done].
  - rewrite ne_mask_cons, mask_sum_cons.
    pose proof (row_sum_nonneg ((λ x, negb (x =? c)) <$> row)).
    pose proof (mask_sum_nonneg (ne_mask g c)).
    split.
    + intros Hs x Hx. simpl in Hx. apply elem_of_app in Hx as [Hx|Hx].
      * apply (proj1 (row_sum_ne_zero row c)); [lia|done].
      * apply IH; [lia|done].
    + intros Hall.
      rewrite (proj2 (row_sum_ne_zero row c)), (proj2 IH); [done| |];
        intros x Hx; apply Hall; simpl; apply elem_of_app; auto.
Qed.

Lemma cell_count_concat {A} (g : list (list A)) :
  cell_count g = Z.of_nat (length (concat g)).
Proof.
  unfold cell_count. induction g as [|row g IH]; simpl; [done|].
  rewrite length_app, IH. lia.
Qed.

Lemma same_shape_cell_count {A B} (g1 : list (list A)) (g2 : list (list B)) :
  same_shape g1 g2 → cell_count g1 = cell_count g2.
Proof.
  unfold same_shape, cell_count. induction 1 as [|r1 r2 g1 g2 Hr _ IH]; simpl; [done|].
  rewrite Hr, IH. done.
Qed.

Lemma nonempty_has_cell {A} (g : list (list A)) :
  0 < cell_count g → ∃ x, x ∈ concat g.
Proof.
  rewrite cell_count_concat. destruct (concat g) as [|x l]; simpl; [lia|].
  intros _. exists x. apply list_elem_of_here.
Qed.

(** ** compute_bbox_matrix_iou: the counts of one class *)

Lemma intersect_bounds labels predictions c :
  0 <= intersect labels predictions c ∧
  intersect labels predictions c <= labels_c_sum labels c ∧
  intersect labels predictions c <= pred_c_sum predictions c.
Proof.
  unfold intersect, labels_c_sum, pred_c_sum.
  pose proof (mask_sum_nonneg (logical_and (ne_mask labels c) (ne_mask predictions c))).
  pose proof (mask_sum_and_le (ne_mask labels c) (ne_mask predictions c)). lia.
Qed.

Lemma class_seen_true labels predictions c :
  class_seen labels predictions c = true ↔
  0 < labels_c_sum labels c ∨ 0 < pred_c_sum predictions c.
Proof. unfold class_seen. rewrite orb_true_iff, !Z.ltb_lt. done. Qed.

Lemma class_seen_false labels predictions c :
  class_seen labels predictions c = false ↔
  (∀ x, x ∈ concat labels → x = c) ∧ (∀ x, x ∈ concat predictions → x = c).
Proof.
  unfold class_seen. rewrite orb_false_iff, !Z.ltb_ge.
  rewrite <- !mask_sum_ne_zero. unfold labels_c_sum, pred_c_sum.
  pose proof (mask_sum_nonneg (ne_mask labels c)).
  pose proof (mask_sum_nonneg (ne_mask predictions c)). lia.
Qed.

Lemma intersect_diag g c : intersect g g c = labels_c_sum g c.
Proof. unfold intersect, labels_c_sum. apply mask_sum_and_diag. Qed.

Lemma union_diag g c : union g g c = labels_c_sum g c.
Proof. unfold union. rewrite intersect_diag. unfold pred_c_sum, labels_c_sum. lia. Qed.

(** ** compute_bbox_matrix_iou: the loop *)

Lemma filter_all {A} (P : A → Prop) `{∀ x, Decision (P x)} (l : list A) :
  (∀ x, x ∈ l → P x) → filter P l = l.
Proof.
  induction l as [|x l IH]; intros Hall; [done|].
  rewrite filter_cons_True by (apply Hall, list_elem_of_here).
  f_equal. apply IH. intros y Hy. by apply Hall, list_elem_of_further.
Qed.

(** All but at most one element of a duplicate-free list pass a test
    that only [x0] may fail. *)
Lemma filter_all_but_one `{EqDecision A} (P : A → Prop) `{∀ x, Decision (P x)}
    (x0 : A) (l : list A) :
  NoDup l → (∀ x, x ∈ l → x ≠ x0 → P x) →
  (length l ≤ S (length (filter P l)))%nat.
Proof.
  induction 1 as [|x l Hx Hnd IH]; intros Hall; [simpl; lia|].
  destruct (decide (P x)) as [HP|HP].
  - rewrite filter_cons_True by done. simpl.
    apply le_n_S, IH. intros y Hy. by apply Hall, list_elem_of_further.
  - rewrite filter_cons_False by done.
    assert (x = x0) as ->.
    { destruct (decide (x = x0)) as [|Hne]; [done|].
      exfalso. apply HP, Hall; [apply list_elem_of_here|done]. }
    rewrite filter_all; [simpl; lia|].
    intros y Hy. apply Hall; [by apply list_elem_of_further|].
    intros ->. done.
Qed.

#[global] Instance QScore_laws : ArithLaws QScore.
Proof.
  split.
  - intros k Hk. simpl. unfold qs_div.
    destruct (decide (Q2Qc (inject_Z k) = 0%Qc)) as [E|E].
    + exfalso. apply (f_equal this) in E. simpl in E.
      assert (Hq : (Qred (inject_Z k) == 0)%Q) by (rewrite E; reflexivity).
      rewrite Qred_correct in Hq. unfold Qeq in Hq. simpl in Hq. lia.
    + f_equal. unfold Qcdiv. by rewrite Qcmult_inv_r.
  - intros k _. simpl. f_equal. apply Qc_is_canon. simpl.
    rewrite !Qred_correct, inject_Z_plus. reflexivity.
Qed.

Section IouLoop.
Context {F : Type} `{Arith F}.

(** The loop counts the classes that pass the test of line 189. *)
Lemma iou_fold_seen labels predictions cs (st : iou_state) :
  seen_classes (fold_left (iou_step labels predictions) cs st) =
  seen_classes st +
  Z.of_nat (length (filter (λ c, class_seen labels predictions c = true) cs)).
Proof.
  revert st. induction cs as [|c cs IH]; intros st; simpl; [lia|].
  rewrite IH. unfold iou_step.
  destruct (class_seen labels predictions c) eqn:E.
  - rewrite filter_cons_True by done. simpl. lia.
  - rewrite filter_cons_False by congruence. done.
Qed.

Lemma iou_loop_seen labels predictions n :
  seen_classes (iou_loop labels predictions n) =
  Z.of_nat (length (filter (λ c, class_seen labels predictions c = true)
                           (py_range 0 n))).
Proof. unfold iou_loop. by rewrite iou_fold_seen. Qed.

Lemma iou_loop_seen_le labels predictions n :
  0 <= seen_classes (iou_loop labels predictions n) <= Z.max 0 n.
Proof.
  rewrite iou_loop_seen.
  pose proof (length_filter (λ c, class_seen labels predictions c = true)
                            (py_range 0 n)) as Hle.
  rewrite py_range_length in Hle. lia.
Qed.

(** On a grid that has a cell, at most one class fails the test. *)
Lemma unseen_unique labels predictions c1 c2 :
  0 < cell_count labels →
  class_seen labels predictions c1 = false →
  class_seen labels predictions c2 = false → c1 = c2.
Proof.
  intros Hne H1 H2. apply nonempty_has_cell in Hne as [x Hx].
  apply class_seen_false in H1 as [H1 _]. apply class_seen_false in H2 as [H2 _].
  by rewrite <- (H1 x Hx), <- (H2 x Hx).
Qed.

Lemma iou_loop_seen_ge labels predictions n :
  0 < cell_count labels → n - 1 <= seen_classes (iou_loop labels predictions n).
Proof.
  intros Hne. rewrite iou_loop_seen.
  destruct (nonempty_has_cell labels Hne) as [x0 Hx0].
  pose proof (filter_all_but_one (λ c, class_seen labels predictions c = true) x0
                (py_range 0 n) (py_range_NoDup 0 n)) as Hle.
  rewrite py_range_length in Hle.
  assert (Hall : ∀ c, c ∈ py_range 0 n → c ≠ x0 →
                      class_seen labels predictions c = true).
  { intros c _ Hc. destruct (class_seen labels predictions c) eqn:E; [done|].
    apply class_seen_false in E as [E _]. by rewrite (E x0 Hx0) in Hc. }
  specialize (Hle Hall). lia.
Qed.

Lemma iou_loop_empty labels predictions n :
  same_shape labels predictions → cell_count labels = 0 →
  seen_classes (iou_loop labels predictions n) = 0.
Proof.
  intros Hs H0. rewrite iou_loop_seen.
  assert (Hp : cell_count predictions = 0)
    by (by rewrite <- (same_shape_cell_count _ _ Hs)).
  rewrite cell_count_concat in H0, Hp.
  assert (concat labels = []) as El by (apply length_zero_iff_nil; lia).
  assert (concat predictions = []) as Ep by (apply length_zero_iff_nil; lia).
  replace (filter _ _) with (@nil Z); [done|].
  symmetry. induction (py_range 0 n) as [|c cs IH]; [done|].
  rewrite filter_cons_False; [done|].
  intros E. assert (class_seen labels predictions c = false) as E'; [|congruence].
  apply class_seen_false. rewrite El, Ep.
  split; intros x Hx; by apply elem_of_nil in Hx.
Qed.

End IouLoop.

(** C9: in compute_bbox_matrix_iou, whenever the test of line 189 passes
    for a class [c] (one of the two sums is positive), the divisor
    [union = labels_c_sum + pred_c_sum - intersect] is strictly positive:
    [intersect] is at most the smaller sum, so [union] is at least the
    larger one.  The division the loop then performs is by that [union]. *)
Theorem union_positive_when_seen {F : Type} `{Arith F}
    (labels predictions : grid) (c : Z) (st : iou_state) :
  same_shape labels predictions →
  class_seen labels predictions c = true →
  0 < union labels predictions c ∧
  intersect labels predictions c
    <= Z.min (labels_c_sum labels c) (pred_c_sum predictions c) ∧
  Z.max (labels_c_sum labels c) (pred_c_sum predictions c)
    <= union labels predictions c ∧
  iou_step labels predictions st c =
    {| mean_iou := fadd (mean_iou st)
                        (fdiv (of_int (intersect labels predictions c))
                              (of_int (union labels predictions c)));
       seen_classes := seen_classes st + 1 |}.
Proof.
  intros _ Hseen.
  pose proof (intersect_bounds labels predictions c) as (Hi0 & Hi1 & Hi2).
  pose proof (proj1 (class_seen_true labels predictions c) Hseen) as Hpos.
  unfold iou_step. rewrite Hseen. unfold union. repeat split; lia.
Qed.

Lemma union_positive_when_seen_witness :
  same_shape [[0; 1]; [2; 9]] [[0; 1]; [9; 9]] ∧
  class_seen [[0; 1]; [2; 9]] [[0; 1]; [9; 9]] 0 = true ∧
  0 < union [[0; 1]; [2; 9]] [[0; 1]; [9; 9]] 0.
Proof.
  assert (Hs : same_shape [[0; 1]; [2; 9]] [[0; 1]; [9; 9]])
    by (repeat constructor).
  split; [exact Hs|]. split; [reflexivity|].
  exact (proj1 (union_positive_when_seen (F:=QScore) [[0; 1]; [2; 9]] [[0; 1]; [9; 9]] 0
                  {| mean_iou := of_int 0; seen_classes := 0 |} Hs eq_refl)).
Defined.

(** C10: for two grids of one shape and at least two classes, a grid
    that has a cell leaves at most one class unseen (an unseen class is the
    value of every cell), so the loop sees at least [n_classes - 1 >= 1]
    classes and the result is the quotient, not the fallback 0; the
    fallback is taken only on grids without cells, where it is taken for
    every class count. *)
Theorem zero_seen_only_on_empty_grids {F : Type} `{Arith F}
    (labels predictions : grid) (n_classes : Z) :
  same_shape labels predictions →
  2 <= n_classes →
  (0 < cell_count labels →
     (∀ c1 c2, class_seen labels predictions c1 = false →
               class_seen labels predictions c2 = false → c1 = c2) ∧
     n_classes - 1 <= seen_classes (iou_loop labels predictions n_classes) ∧
     1 <= seen_classes (iou_loop labels predictions n_classes) ∧
     compute_bbox_matrix_iou labels predictions n_classes =
       fdiv (mean_iou (iou_loop labels predictions n_classes))
            (of_int (seen_classes (iou_loop labels predictions n_classes)))) ∧
  (seen_classes (iou_loop labels predictions n_classes) = 0 ↔
     cell_count labels = 0 ∧ cell_count predictions = 0).
Proof.
  intros Hs Hn. split.
  - intros Hne. pose proof (iou_loop_seen_ge labels predictions n_classes Hne) as Hge.
    split; [intros c1 c2; by apply unseen_unique|].
    split; [done|]. split; [lia|].
    unfold compute_bbox_matrix_iou.
    destruct (Z.eqb_spec (seen_classes (iou_loop labels predictions n_classes)) 0); [lia|done].
  - pose proof (same_shape_cell_count _ _ Hs) as Hc.
    pose proof (cell_count_concat labels) as Hl.
    split.
    + intros H0. destruct (decide (0 < cell_count labels)) as [Hne|Hne]; [|lia].
      pose proof (iou_loop_seen_ge labels predictions n_classes Hne). lia.
    + intros [H0 _]. by apply iou_loop_empty.
Qed.

Lemma zero_seen_only_on_empty_grids_witness :
  same_shape [[7; 7]; [7; 7]] [[7; 7]; [7; 7]] ∧ 2 <= 10 ∧
  seen_classes (iou_loop (F:=QScore) [[7; 7]; [7; 7]] [[7; 7]; [7; 7]] 10) ≠ 0.
Proof.
  assert (Hs : same_shape [[7; 7]; [7; 7]] [[7; 7]; [7; 7]]) by (repeat constructor).
  assert (Hn : 2 <= 10) by lia.
  split; [exact Hs|]. split; [exact Hn|].
  intros E.
  apply (proj2 (zero_seen_only_on_empty_grids (F:=QScore) _ _ 10 Hs Hn)) in E.
  destruct E as [E _]. vm_compute in E. discriminate E.
Defined.

Section IouIdentical.
Context {F : Type} `{ArithLaws F}.

Lemma class_iou_identical (g : grid) c :
  class_seen g g c = true →
  fdiv (of_int (intersect g g c)) (of_int (union g g c)) = of_int 1.
Proof.
  intros Hseen. rewrite union_diag, intersect_diag. apply fdiv_diag.
  apply class_seen_true in Hseen. unfold pred_c_sum, labels_c_sum in *. lia.
Qed.

Lemma iou_fold_identical (g : grid) cs k :
  0 <= k → k + Z.of_nat (length cs) < 2 ^ 53 →
  mean_iou (fold_left (iou_step g g) cs {| mean_iou := of_int k; seen_classes := k |})
  = of_int (seen_classes
              (fold_left (iou_step g g) cs {| mean_iou := of_int k; seen_classes := k |})).
Proof.
  revert k. induction cs as [|c cs IH]; intros k Hk Hlen; [done|].
  simpl in *. unfold iou_step at 2 4.
  destruct (class_seen g g c) eqn:E.
  - rewrite class_iou_identical by done. simpl.
    rewrite fadd_succ by lia. apply IH; lia.
  - apply IH; lia.
Qed.
End IouIdentical.

(** C4: for a grid that has a cell, compared with itself over 10 classes,
    compute_bbox_matrix_iou returns exactly one: every seen class has
    intersection over union one, and so has their mean.  (The scores are
    those of any arithmetic in which a positive count divided by itself is
    one and counting up to 10 is exact.) *)
Theorem iou_identical_grids {F : Type} `{ArithLaws F} (g : grid) :
  0 < cell_count g →
  (∀ x, x ∈ concat g → 0 <= x < 10) →
  compute_bbox_matrix_iou g g 10 = of_int 1 ∧
  ∀ c, class_seen g g c = true →
       fdiv (of_int (intersect g g c)) (of_int (union g g c)) = of_int 1.
Proof.
  intros Hne _. split; [|intros c; apply class_iou_identical].
  pose proof (iou_loop_seen_ge g g 10 Hne) as Hge.
  unfold compute_bbox_matrix_iou.
  destruct (Z.eqb_spec (seen_classes (iou_loop g g 10)) 0) as [E|E]; [lia|].
  unfold iou_loop in *. rewrite iou_fold_identical.
  - apply fdiv_diag. lia.
  - lia.
  - rewrite py_range_length. simpl. lia.
Qed.

Lemma iou_identical_grids_witness :
  compute_bbox_matrix_iou (F:=QScore) [[0; 1]; [2; 9]] [[0; 1]; [2; 9]] 10 = of_int 1.
Proof.
  refine (proj1 (iou_identical_grids (F:=QScore) [[0; 1]; [2; 9]] _ _)).
  - reflexivity.
  - intros x Hx. simpl in Hx.
    repeat (apply elem_of_cons in Hx as [->|Hx]; [lia|]).
    by apply elem_of_nil in Hx.
Defined.

(** ** compute_bbox_matrix_iou against its reference definition *)

Module IouRefFacts.
Import IouRef.

Lemma elem_of_row_presence c i j row p :
  p ∈ row_presence c i j row ↔
  ∃ k x, row !! k = Some x ∧ x ≠ c ∧ p = (i, (j + k)%nat).
Proof.
  revert j. induction row as [|y row IH]; intros j; simpl.
  - split; [intros Hp; by apply not_elem_of_empty in Hp|].
    intros (k & x & Hk & _). by rewrite lookup_nil in Hk.
  - rewrite elem_of_union, IH. split.
    + intros [Hp|(k & x & Hk & Hx & ->)].
      * destruct (decide (y ≠ c)) as [Hy|Hy];
          [|by apply not_elem_of_empty in Hp].
        apply elem_of_singleton in Hp as ->.
        exists 0%nat, y. by rewrite Nat.add_0_r.
      * exists (S k), x. split; [done|]. split; [done|]. f_equal. lia.
    + intros ([|k] & x & Hk & Hx & ->); simpl in Hk.
      * injection Hk as ->. left. rewrite decide_True by done.
        apply elem_of_singleton. by rewrite Nat.add_0_r.
      * right. exists k, x. split; [done|]. split; [done|]. f_equal. lia.
Qed.

Lemma elem_of_presence_from c i (g : grid) p :
  p ∈ presence_from c i g ↔
  ∃ r k x, cell g r k = Some x ∧ x ≠ c ∧ p = ((i + r)%nat, k).
Proof.
  revert i. induction g as [|row g IH]; intros i; simpl.
  - split; [intros Hp; by apply not_elem_of_empty in Hp|].
    intros (r & k & x & Hk & _). unfold cell in Hk. by rewrite lookup_nil in Hk.
  - rewrite elem_of_union, IH, elem_of_row_presence. split.
    + intros [(k & x & Hk & Hx & ->)|(r & k & x & Hk & Hx & ->)].
      * exists 0%nat, k, x. unfold cell. simpl. by rewrite Nat.add_0_r.
      * exists (S r), k, x. split; [done|]. split; [done|]. f_equal. lia.
    + intros ([|r] & k & x & Hk & Hx & ->); unfold cell in Hk; simpl in Hk.
      * left. exists k, x. by rewrite Nat.add_0_r.
      * right. exists r, k, x. split; [done|]. split; [done|]. f_equal. lia.
Qed.

(** The presence mask is the set of the positions whose cell is not [c]. *)
Lemma elem_of_presence_mask (g : grid) c r k :
  (r, k) ∈ presence_mask g c ↔ ∃ x, cell g r k = Some x ∧ x ≠ c.
Proof.
  unfold presence_mask. rewrite elem_of_presence_from. split.
  - intros (r' & k' & x & Hx & Hne & E). injection E as -> ->. eauto.
  - intros (x & Hx & Hne). exists r, k, x. done.
Qed.

Lemma row_presence_pos c i j row p :
  p ∈ row_presence c i j row → p.1 = i ∧ (j ≤ p.2)%nat.
Proof.
  rewrite elem_of_row_presence. intros (k & x & _ & _ & ->). simpl. lia.
Qed.

Lemma presence_from_pos c i g p : p ∈ presence_from c i g → (i ≤ p.1)%nat.
Proof.
  rewrite elem_of_presence_from. intros (r & k & x & _ & _ & ->). simpl. lia.
Qed.

Lemma size_head (P : Prop) `{Decision P} (p : nat * nat) :
  size (if decide P then ({[ p ]} : gset (nat * nat)) else ∅) =
  if decide P then 1%nat else 0%nat.
Proof. destruct (decide P); [apply size_singleton|apply size_empty]. Qed.

Lemma size_row_presence c i j row :
  Z.of_nat (size (row_presence c i j row)) = row_sum ((λ x, negb (x =? c)) <$> row).
Proof.
  revert j. induction row as [|y row IH]; intros j; [done|].
  simpl row_presence. rewrite fmap_cons, row_sum_cons, size_union.
  - rewrite Nat2Z.inj_add, IH, size_head.
    destruct (decide (y ≠ c)) as [Hy|Hy], (Z.eqb_spec y c); simpl; try lia; done.
  - intros p Hp1 Hp2. apply row_presence_pos in Hp2 as [_ Hp2].
    destruct (decide (y ≠ c)); [|by apply not_elem_of_empty in Hp1].
    apply elem_of_singleton in Hp1 as ->. simpl in Hp2. lia.
Qed.

Lemma size_presence_from c i (g : grid) :
  Z.of_nat (size (presence_from c i g)) = mask_sum (ne_mask g c).
Proof.
  revert i. induction g as [|row g IH]; intros i; [done|].
  simpl presence_from. rewrite ne_mask_cons, mask_sum_cons, size_union.
  - by rewrite Nat2Z.inj_add, IH, size_row_presence.
  - intros p Hp1 Hp2. apply row_presence_pos in Hp1 as [Hp1 _].
    apply presence_from_pos in Hp2. lia.
Qed.

Lemma size_row_inter c i j row1 row2 :
  Z.of_nat (size (row_presence c i j row1 ∩ row_presence c i j row2)) =
  row_sum (zip_with andb ((λ x, negb (x =? c)) <$> row1)
                         ((λ x, negb (x =? c)) <$> row2)).
Proof.
  revert j row2. induction row1 as [|y1 row1 IH]; intros j [|y2 row2].
  - change (row_presence c i j []) with (∅ : gset (nat * nat)).
    by rewrite intersection_empty_l_L.
  - change (row_presence c i j []) with (∅ : gset (nat * nat)).
    by rewrite intersection_empty_l_L.
  - change (row_presence c i j []) with (∅ : gset (nat * nat)).
    by rewrite intersection_empty_r_L.
  - simpl row_presence. rewrite !fmap_cons. simpl zip_with. rewrite row_sum_cons.
    rewrite <- (IH (S j) row2).
    replace (((if decide (y1 ≠ c) then {[(i, j)]} else ∅) ∪ row_presence c i (S j) row1)
             ∩ ((if decide (y2 ≠ c) then {[(i, j)]} else ∅) ∪ row_presence c i (S j) row2))
      with ((if decide (y1 ≠ c ∧ y2 ≠ c) then ({[(i, j)]} : gset (nat * nat)) else ∅)
            ∪ (row_presence c i (S j) row1 ∩ row_presence c i (S j) row2)).
    + rewrite size_union.
      * rewrite Nat2Z.inj_add, size_head.
        destruct (decide (y1 ≠ c ∧ y2 ≠ c)) as [Hy|Hy],
                 (Z.eqb_spec y1 c), (Z.eqb_spec y2 c); simpl; try lia; tauto.
      * intros p Hp1 Hp2. apply elem_of_intersection in Hp2 as [Hp2 _].
        apply row_presence_pos in Hp2 as [_ Hp2].
        destruct (decide (y1 ≠ c ∧ y2 ≠ c)); [|by apply not_elem_of_empty in Hp1].
        apply elem_of_singleton in Hp1 as ->. simpl in Hp2. lia.
    + apply set_eq. intros p.
      rewrite elem_of_union, !elem_of_intersection, !elem_of_union.
      pose proof (row_presence_pos c i (S j) row1 p) as T1.
      pose proof (row_presence_pos c i (S j) row2 p) as T2.
      destruct (decide (y1 ≠ c)), (decide (y2 ≠ c));
        try rewrite (decide_True (P := _ ∧ _)) by tauto;
        try rewrite (decide_False (P := _ ∧ _)) by tauto;
        rewrite ?elem_of_singleton; split; intros Hp;
        repeat match goal with
               | Hx : _ ∨ _ |- _ => destruct Hx
               | Hx : _ ∧ _ |- _ => destruct Hx
               | Hx : _ ∈ ∅ |- _ => by apply not_elem_of_empty in Hx
               end; subst; auto;
        try (specialize (T1 ltac:(done)); simpl in T1; lia);
        try (specialize (T2 ltac:(done)); simpl in T2; lia).
Qed.

Lemma size_presence_inter c i (g1 g2 : grid) :
  Z.of_nat (size (presence_from c i g1 ∩ presence_from c i g2)) =
  mask_sum (logical_and (ne_mask g1 c) (ne_mask g2 c)).
Proof.
  revert i g2. induction g1 as [|r1 g1 IH]; intros i [|r2 g2].
  - change (presence_from c i []) with (∅ : gset (nat * nat)).
    by rewrite intersection_empty_l_L.
  - change (presence_from c i []) with (∅ : gset (nat * nat)).
    by rewrite intersection_empty_l_L.
  - change (presence_from c i []) with (∅ : gset (nat * nat)).
    by rewrite intersection_empty_r_L.
  - simpl presence_from. rewrite !ne_mask_cons.
    unfold logical_and in *. simpl zip_with. rewrite mask_sum_cons.
    rewrite <- (IH (S i) g2), <- (size_row_inter c i 0 r1 r2), <- Nat2Z.inj_add.
    f_equal. rewrite <- size_union.
    + f_equal. apply set_eq. intros p.
      rewrite elem_of_union, !elem_of_intersection, !elem_of_union.
      pose proof (row_presence_pos c i 0 r1 p) as T1.
      pose proof (row_presence_pos c i 0 r2 p) as T2.
      pose proof (presence_from_pos c (S i) g1 p) as T3.
      pose proof (presence_from_pos c (S i) g2 p) as T4.
      split; intros Hp;
        repeat match goal with
               | Hx : _ ∨ _ |- _ => destruct Hx
               | Hx : _ ∧ _ |- _ => destruct Hx
               end; auto;
        try (specialize (T1 ltac:(done)); specialize (T4 ltac:(done)); lia);
        try (specialize (T2 ltac:(done)); specialize (T3 ltac:(done)); lia).
    + intros p Hp1 Hp2.
      apply elem_of_intersection in Hp1 as [Hp1 _].
      apply elem_of_intersection in Hp2 as [Hp2 _].
      apply row_presence_pos in Hp1 as [Hp1 _].
      apply presence_from_pos in Hp2. lia.
Qed.

Lemma size_presence_mask (g : grid) c :
  Z.of_nat (size (presence_mask g c)) = labels_c_sum g c.
Proof. apply size_presence_from. Qed.

Lemma size_presence_mask_inter (g1 g2 : grid) c :
  Z.of_nat (size (presence_mask g1 c ∩ presence_mask g2 c)) = intersect g1 g2 c.
Proof. apply size_presence_inter. Qed.

Lemma presence_mask_nonempty (g : grid) c :
  presence_mask g c ≠ ∅ ↔ 0 < labels_c_sum g c.
Proof.
  rewrite <- size_presence_mask.
  pose proof (size_non_empty_iff (presence_mask g c)) as Hsz.
  rewrite <- (leibniz_equiv_iff (presence_mask g c) ∅). rewrite <- Hsz. lia.
Qed.

(** Seen, as the reference says it, is the test of line 189. *)
Lemma seen_class_seen (g1 g2 : grid) c :
  seen g1 g2 c ↔ class_seen g1 g2 c = true.
Proof.
  unfold seen. rewrite class_seen_true, !presence_mask_nonempty. done.
Qed.

Section Loop.
Context {F : Type} `{Arith F}.

Lemma class_iou_counts (g1 g2 : grid) c :
  class_iou g1 g2 c =
  fdiv (of_int (intersect g1 g2 c)) (of_int (union g1 g2 c)).
Proof.
  unfold class_iou, union.
  rewrite size_presence_mask_inter, !size_presence_mask. done.
Qed.

Lemma iou_fold_ref (g1 g2 : grid) cs (st : iou_state) :
  fold_left (iou_step g1 g2) cs st =
  {| mean_iou := fold_left fadd (class_iou g1 g2 <$> filter (seen g1 g2) cs)
                           (mean_iou st);
     seen_classes := seen_classes st
                     + Z.of_nat (length (filter (seen g1 g2) cs)) |}.
Proof.
  revert st. induction cs as [|c cs IH]; intros st.
  - destruct st. simpl. f_equal. lia.
  - simpl fold_left at 1. rewrite IH. unfold iou_step.
    destruct (class_seen g1 g2 c) eqn:E.
    + rewrite filter_cons_True by (by apply seen_class_seen).
      rewrite fmap_cons. simpl. rewrite class_iou_counts. f_equal. lia.
    + rewrite filter_cons_False; [done|].
      rewrite seen_class_seen. congruence.
Qed.
End Loop.
End IouRefFacts.

(** C1: on two grids of one shape, compute_bbox_matrix_iou is the
    reference definition: the presence mask of class [c] in a grid is the
    set of the cells that differ from [c]; a class is seen when one of the
    two masks is not empty; each seen class adds
    |m1 ∩ m2| / (|m1| + |m2| - |m1 ∩ m2|) to a running sum, in the order of
    the classes; the result is the sum divided by the number of seen
    classes, and 0 when no class is seen. *)
Theorem compute_bbox_matrix_iou_ref {F : Type} `{Arith F}
    (labels predictions : grid) (n_classes : Z) :
  same_shape labels predictions →
  0 < n_classes →
  compute_bbox_matrix_iou labels predictions n_classes =
  IouRef.mean_iou_ref labels predictions n_classes.
Proof.
  intros _ _. unfold compute_bbox_matrix_iou, iou_loop, IouRef.mean_iou_ref.
  rewrite IouRefFacts.iou_fold_ref. simpl.
  destruct (filter (IouRef.seen labels predictions) (py_range 0 n_classes))
    as [|c cs] eqn:E; [done|].
  destruct (Z.eqb_spec (Z.of_nat (length (c :: cs))) 0) as [E0|E0];
    [simpl in E0; lia|done].
Qed.

Lemma compute_bbox_matrix_iou_ref_witness :
  compute_bbox_matrix_iou (F:=QScore) [[0; 1]; [2; 9]] [[0; 1]; [9; 9]] 10 =
  IouRef.mean_iou_ref [[0; 1]; [2; 9]] [[0; 1]; [9; 9]] 10.
Proof.
  apply (compute_bbox_matrix_iou_ref (F:=QScore)); [repeat constructor|lia].
Defined.

(** ** RandomBatchSampler *)

Section SamplerFacts.
Context {A : Type}.
Implicit Types (self : RandomBatchSampler A) (l batch rest : list A)
               (cs : list (list A)).

(** What the loop of lines 31-35 maintains: the full batches and the
    batch being filled are a contiguous cut of what was read. *)
Lemma collect_invariant self l :
  0 < batch_size self →
  let st := fold_left (collect_step self) l ([], []) in
  concat st.1 ++ st.2 = l ∧
  Forall (λ c, length c = Z.to_nat (batch_size self)) st.1 ∧
  (length st.2 < Z.to_nat (batch_size self))%nat.
Proof.
  intros HB. induction l as [|idx l IH] using rev_ind; simpl.
  - repeat split; [constructor|lia].
  - rewrite fold_left_app. simpl.
    destruct (fold_left (collect_step self) l ([], [])) as [cs batch].
    simpl in IH. destruct IH as (Hcat & Hfull & Hlt).
    unfold collect_step. simpl.
    destruct (Z.eqb_spec (Z.of_nat (length (batch ++ [idx]))) (batch_size self))
      as [E|E]; simpl.
    + rewrite concat_app. simpl. rewrite !app_nil_r, <- Hcat, <- app_assoc.
      repeat split; [|lia]. apply Forall_app. split; [done|].
      constructor; [lia|constructor].
    + rewrite <- Hcat, app_assoc. repeat split; [done|].
      rewrite length_app in *. simpl in *. lia.
Qed.

Lemma length_concat_full (b : nat) cs :
  Forall (λ c, length c = b) cs → length (concat cs) = (b * length cs)%nat.
Proof.
  induction 1 as [|c cs Hc _ IH]; simpl; [lia|].
  rewrite length_app, IH, Hc. lia.
Qed.

(** A contiguous cut into full batches is the reference partition. *)
Lemma full_batches_chunks (b : nat) cs rest :
  Forall (λ c, length c = b) cs →
  cs = chunk b (concat cs ++ rest) <$> seq 0 (length cs).
Proof.
  induction 1 as [|c cs Hc Hcs IH]; [done|].
  simpl length. simpl seq. rewrite fmap_cons. f_equal.
  - unfold chunk. rewrite Nat.mul_0_l, drop_0. rewrite concat_cons, <- app_assoc.
    by rewrite take_app_length'.
  - rewrite <- fmap_S_seq, <- list_fmap_compose.
    rewrite IH at 1. apply list_fmap_ext. intros _ k _. unfold chunk. simpl.
    rewrite <- app_assoc.
    replace (k * b)%nat with (k * b + 0)%nat at 1 by lia.
    replace (b + k * b)%nat with (length c + k * b)%nat by lia.
    by rewrite Nat.add_0_r, drop_app_add.
Qed.

Lemma cut_div (b : nat) cs rest :
  Forall (λ c, length c = b) cs → (length rest < b)%nat →
  (length (concat cs ++ rest) / b = length cs)%nat ∧
  (length (concat cs ++ rest) mod b = length rest)%nat.
Proof.
  intros Hcs Hlt. rewrite length_app, (length_concat_full b) by done. split.
  - symmetry. apply (Nat.div_unique _ _ _ (length rest)); lia.
  - symmetry. apply (Nat.mod_unique _ _ (length cs)); lia.
Qed.

(** The batches formed are the reference partition of the index
    sequence, in order. *)
Lemma all_batches_partition self :
  0 < batch_size self →
  all_batches self =
  partition_ref (Z.to_nat (batch_size self)) (negb (drop_last self)) (sampler self).
Proof.
  intros HB. unfold all_batches, partition_ref.
  pose proof (collect_invariant self (sampler self) HB) as Hinv.
  destruct (fold_left (collect_step self) (sampler self) ([], [])) as [cs rest].
  simpl in *. destruct Hinv as (Hcat & Hfull & Hlt).
  destruct (cut_div _ cs rest Hfull Hlt) as [Hdiv Hmod].
  rewrite Hcat in Hdiv, Hmod. unfold div_ceil. rewrite Hdiv, Hmod.
  pose proof (full_batches_chunks _ cs rest Hfull) as Hcs. rewrite Hcat in Hcs.
  destruct (drop_last self); simpl.
  - by rewrite andb_false_r.
  - rewrite andb_true_r.
    destruct (Nat.eqb_spec (length rest) 0) as [E|E].
    + destruct (Z.ltb_spec 0 (Z.of_nat (length rest))); [lia|].
      by rewrite Nat.add_0_r.
    + destruct (Z.ltb_spec 0 (Z.of_nat (length rest))); [|lia].
      rewrite Nat.add_1_r, seq_S, fmap_app. simpl. rewrite <- Hcs. f_equal.
      unfold chunk. f_equal.
      rewrite <- Hcat at 1.
      replace (length cs * Z.to_nat (batch_size self))%nat
        with (length (concat cs)) by (rewrite (length_concat_full _ _ Hfull); lia).
      rewrite drop_app_length. by rewrite take_ge by lia.
Qed.

Lemma concat_partition_keep (b : nat) cs rest :
  Forall (λ c, length c = b) cs → (length rest < b)%nat →
  concat (partition_ref b true (concat cs ++ rest)) = concat cs ++ rest.
Proof.
  intros Hfull Hlt. unfold partition_ref, div_ceil.
  destruct (cut_div b cs rest Hfull Hlt) as [-> ->].
  pose proof (full_batches_chunks b cs rest Hfull) as Hcs.
  destruct (Nat.eqb_spec (length rest) 0) as [E|E].
  - rewrite Nat.add_0_r, <- Hcs.
    apply length_zero_iff_nil in E. by rewrite E, app_nil_r.
  - rewrite Nat.add_1_r, seq_S, fmap_app, concat_app, <- Hcs. simpl.
    rewrite app_nil_r. f_equal. unfold chunk.
    replace (length cs * b)%nat with (length (concat cs))
      by (rewrite (length_concat_full _ _ Hfull); lia).
    rewrite drop_app_length. by rewrite take_ge by lia.
Qed.

Lemma concat_partition_drop (b : nat) cs rest :
  Forall (λ c, length c = b) cs → (length rest < b)%nat →
  concat (partition_ref b false (concat cs ++ rest)) =
  take (b * (length (concat cs ++ rest) / b)) (concat cs ++ rest).
Proof.
  intros Hfull Hlt. unfold partition_ref.
  destruct (cut_div b cs rest Hfull Hlt) as [-> _].
  rewrite <- (full_batches_chunks b cs rest Hfull).
  rewrite <- (length_concat_full b cs Hfull). by rewrite take_app_length.
Qed.

(** Every index sequence is such a cut, for every positive batch size. *)
Lemma cut_exists (b : nat) l :
  (0 < b)%nat →
  ∃ cs rest, l = concat cs ++ rest ∧
             Forall (λ c, length c = b) cs ∧ (length rest < b)%nat.
Proof.
  intros Hb.
  pose proof (collect_invariant
                {| sampler := l; batch_size := Z.of_nat b; drop_last := false |} l)
    as Hinv.
  simpl in Hinv. specialize (Hinv ltac:(lia)).
  destruct (fold_left _ l ([], [])) as [cs rest]. simpl in Hinv.
  destruct Hinv as (Hcat & Hfull & Hlt). rewrite Nat2Z.id in *.
  by exists cs, rest.
Qed.

(** Looking a list up at a permutation of its positions permutes it. *)
Lemma Forall2_Permutation_l {X Y} (R : X → Y → Prop) (xs xs' : list X) (ys' : list Y) :
  xs ≡ₚ xs' → Forall2 R xs' ys' → ∃ ys, Forall2 R xs ys ∧ ys ≡ₚ ys'.
Proof.
  intros Hp. revert ys'.
  induction Hp as [|x xs xs' _ IH|x1 x2 xs|xs1 xs2 xs3 _ IH1 _ IH2]; intros ys' HF.
  - apply Forall2_nil_inv_l in HF as ->. by exists [].
  - apply Forall2_cons_inv_l in HF as (y & ys & Hy & HF & ->).
    destruct (IH _ HF) as (zs & Hzs & Hperm).
    exists (y :: zs). split; [by constructor|by constructor].
  - apply Forall2_cons_inv_l in HF as (y1 & ys & Hy1 & HF & ->).
    apply Forall2_cons_inv_l in HF as (y2 & ys2 & Hy2 & HF & ->).
    exists (y2 :: y1 :: ys2). split; [by repeat constructor|constructor].
  - destruct (IH2 _ HF) as (zs & Hzs & Hperm2).
    destruct (IH1 _ Hzs) as (ws & Hws & Hperm1).
    exists ws. split; [done|]. by etrans.
Qed.

Lemma Forall2_lookup_seq {X} (pre l : list X) :
  Forall2 (λ i y, (pre ++ l) !! i = Some y) (seq (length pre) (length l)) l.
Proof.
  revert pre. induction l as [|x l IH]; intros pre; simpl; constructor.
  - by rewrite list_lookup_middle.
  - specialize (IH (pre ++ [x])). rewrite <- app_assoc, length_app in IH.
    simpl in IH. by rewrite Nat.add_1_r in IH.
Qed.

Lemma mapM_lookup_Permutation {X} (l : list X) (idx : list nat) :
  idx ≡ₚ seq 0 (length l) →
  ∃ ys, mapM (λ i, l !! i) idx = Some ys ∧ ys ≡ₚ l.
Proof.
  intros Hp.
  destruct (Forall2_Permutation_l _ _ _ _ Hp (Forall2_lookup_seq [] l))
    as (ys & Hys & Hperm).
  exists ys. split; [|done]. by apply mapM_Some.
Qed.

Lemma concat_Permutation_proper {X} (xs ys : list (list X)) :
  xs ≡ₚ ys → concat xs ≡ₚ concat ys.
Proof.
  induction 1 as [|x xs ys _ IH|x1 x2 xs|xs1 xs2 xs3 _ IH1 _ IH2]; simpl.
  - done.
  - by rewrite IH.
  - rewrite !app_assoc. apply Permutation_app_tail, Permutation_app_comm.
  - by etrans.
Qed.
End SamplerFacts.

(** C3: for every index sequence, every batch size B > 0 and every
    permutation drawn at line 39, one traversal yields, up to their order,
    the contiguous partition of the index sequence into chunks of B
    consecutive indices.  When [drop_last] is false the shorter last chunk
    is kept: ceil(N/B) batches, holding every index exactly once.  When
    [drop_last] is true it is discarded: floor(N/B) batches, holding
    exactly the first B * floor(N/B) indices, the last N mod B ones being
    dropped. *)
Theorem iter_yields_partition {A : Type} (self : RandomBatchSampler A)
    (rand_index : list nat) :
  0 < batch_size self →
  rand_index ≡ₚ seq 0 (length (all_batches self)) →
  ∃ yielded,
    iter self rand_index = Some yielded ∧
    all_batches self =
      partition_ref (Z.to_nat (batch_size self)) (negb (drop_last self)) (sampler self) ∧
    yielded ≡ₚ
      partition_ref (Z.to_nat (batch_size self)) (negb (drop_last self)) (sampler self) ∧
    (drop_last self = false →
       concat yielded ≡ₚ sampler self ∧
       length yielded =
         div_ceil (length (sampler self)) (Z.to_nat (batch_size self))) ∧
    (drop_last self = true →
       concat yielded ≡ₚ
         take (Z.to_nat (batch_size self)
               * (length (sampler self) / Z.to_nat (batch_size self)))
              (sampler self) ∧
       length yielded = (length (sampler self) / Z.to_nat (batch_size self))%nat ∧
       length (drop (Z.to_nat (batch_size self)
                     * (length (sampler self) / Z.to_nat (batch_size self)))
                    (sampler self))
       = (length (sampler self) mod Z.to_nat (batch_size self))%nat).
Proof.
  intros HB Hperm.
  destruct (mapM_lookup_Permutation (all_batches self) rand_index Hperm)
    as (yielded & Hiter & Hy).
  pose proof (all_batches_partition self HB) as Hall.
  exists yielded. split; [exact Hiter|]. split; [exact Hall|].
  rewrite Hall in Hy. split; [exact Hy|].
  destruct (cut_exists (Z.to_nat (batch_size self)) (sampler self) ltac:(lia))
    as (cs & rest & Hcut & Hfull & Hlt).
  split; intros Hdrop; rewrite Hdrop in Hy; simpl in Hy.
  - split.
    + rewrite (concat_Permutation_proper _ _ Hy), Hcut.
      by rewrite concat_partition_keep.
    + rewrite (Permutation_length Hy). unfold partition_ref.
      by rewrite length_fmap, length_seq.
  - split; [|split].
    + rewrite (concat_Permutation_proper _ _ Hy), Hcut.
      by rewrite concat_partition_drop.
    + rewrite (Permutation_length Hy). unfold partition_ref.
      by rewrite length_fmap, length_seq.
    + rewrite length_drop.
      pose proof (Nat.div_mod_eq (length (sampler self)) (Z.to_nat (batch_size self))).
      lia.
Qed.

Lemma iter_yields_partition_witness :
  ∃ yielded,
    iter {| sampler := [0; 1; 2; 3; 4; 5; 6; 7; 8]; batch_size := 2; drop_last := true |}
         [2; 0; 3; 1]%nat = Some yielded ∧
    concat yielded ≡ₚ [0; 1; 2; 3; 4; 5; 6; 7].
Proof.
  destruct (iter_yields_partition
              {| sampler := [0; 1; 2; 3; 4; 5; 6; 7; 8]; batch_size := 2;
                 drop_last := true |} [2; 0; 3; 1]%nat)
    as (yielded & Hiter & _ & _ & _ & Hdrop).
  - simpl. lia.
  - change ([2; 0; 3; 1]%nat ≡ₚ [0; 1; 2; 3]%nat).
    apply (Permutation_trans (l' := [0; 2; 3; 1]%nat)); [apply perm_swap|].
    apply perm_skip.
    apply (Permutation_trans (l' := [2; 1; 3]%nat)); [apply perm_skip, perm_swap|].
    apply perm_swap.
  - exists yielded. split; [exact Hiter|]. exact (proj1 (Hdrop eq_refl)).
Defined.

(** C6: for every length N of the underlying sequence and every batch
    size B > 0, [__len__] returns ceil(N/B) when [drop_last] is false and
    floor(N/B) when it is true. *)
Theorem len_ceil_floor {A : Type} (self : RandomBatchSampler A) :
  0 < batch_size self →
  len self =
  Some (if drop_last self
        then Qfloor (inject_Z (Z.of_nat (length (sampler self)))
                     / inject_Z (batch_size self))
        else Qceiling (inject_Z (Z.of_nat (length (sampler self)))
                       / inject_Z (batch_size self))).
Proof.
  intros HB. unfold len, py_floordiv.
  destruct (Z.eqb_spec (batch_size self) 0) as [E|_]; [lia|].
  set (N := Z.of_nat (length (sampler self))).
  assert (Hq : (inject_Z N / inject_Z (batch_size self)
                == N # Z.to_pos (batch_size self))%Q).
  { rewrite Qmake_Qdiv. by rewrite Z2Pos.id. }
  destruct (drop_last self); f_equal.
  - rewrite Hq. unfold Qfloor. by rewrite Z2Pos.id.
  - rewrite Hq. unfold Qceiling, Qfloor, Qopp. simpl Qnum. simpl Qden.
    rewrite Z2Pos.id by done.
    generalize (batch_size self) HB. intros B HB'.
    Z.to_euclidean_division_equations. nia.
Qed.

Lemma len_ceil_floor_witness :
  len {| sampler := [0; 1; 2; 3; 4; 5; 6; 7; 8]; batch_size := 2; drop_last := false |}
  = Some 5.
Proof.
  exact (len_ceil_floor
           {| sampler := [0; 1; 2; 3; 4; 5; 6; 7; 8]; batch_size := 2;
              drop_last := false |} eq_refl).
Defined.

(** ** bounding_box_to_matrix_image *)

Lemma foldlM_app {S X} (f : S → X → option S) (l1 l2 : list X) (s : S) :
  foldlM f (l1 ++ l2) s = s' ← foldlM f l1 s; foldlM f l2 s'.
Proof.
  revert s. induction l1 as [|x l1 IH]; intros s; simpl.
  - done.
  - destruct (f s x) as [s1|]; simpl; [apply IH|done].
Qed.

Lemma foldlM_fmap {S X Y} (f : S → Y → option S) (g : X → Y) (l : list X) (s : S) :
  foldlM f (g <$> l) s = foldlM (λ s x, f s (g x)) l s.
Proof.
  revert s. induction l as [|x l IH]; intros s; simpl; [done|].
  destruct (f s (g x)); simpl; [apply IH|done].
Qed.

Lemma bind_singleton_fmap {X Y} (f : X → Y) (l : list X) :
  l ≫= (λ x, [f x]) = f <$> l.
Proof.
  induction l as [|x l IH]; [done|]. by rewrite bind_cons, fmap_cons, IH.
Qed.

(** The two nested loops are one loop over [writes]. *)
Lemma stamp_writes label rc m :
  stamp label rc m = foldlM (λ m p, set_cell label m p.1 p.2) (writes rc) m.
Proof.
  unfold stamp, writes.
  generalize (py_range (min_x rc) (max_x rc)) as rows.
  generalize (py_range (min_y rc) (max_y rc)) as cols.
  intros cols rows. revert m. induction rows as [|i rows IH]; intros m; [done|].
  rewrite bind_cons, foldlM_app. simpl foldlM at 1.
  rewrite (bind_singleton_fmap (λ j, (i, j)) cols), foldlM_fmap. simpl.
  destruct (foldlM (λ m j, set_cell label m i j) cols m); simpl; [apply IH|done].
Qed.

Lemma elem_of_writes rc i j :
  (i, j) ∈ writes rc ↔ min_x rc <= i < max_x rc ∧ min_y rc <= j < max_y rc.
Proof.
  unfold writes. rewrite list_elem_of_bind. split.
  - intros (i' & Hj & Hi). apply list_elem_of_bind in Hj as (j' & Hp & Hj).
    apply list_elem_of_singleton in Hp. injection Hp as -> ->.
    apply elem_of_py_range in Hi, Hj. done.
  - intros [Hi Hj]. exists i. split; [|by apply elem_of_py_range].
    apply list_elem_of_bind. exists j. split; [|by apply elem_of_py_range].
    by apply list_elem_of_singleton.
Qed.

Lemma stamped_in_stamp rc r c : stamped rc r c ↔ in_stamp rc r c.
Proof.
  unfold stamped, in_stamp, hits. rewrite Exists_exists. split.
  - intros ([i j] & Hp & Hr & Hc). apply elem_of_writes in Hp as [Hi Hj].
    exists i, j. done.
  - intros (i & j & Hi & Hj & Hr & Hc). exists (i, j).
    split; [by apply elem_of_writes|done].
Qed.

Lemma shaped_background : shaped 800 800 background.
Proof.
  unfold background. split; [apply length_replicate|].
  apply Forall_replicate, length_replicate.
Qed.

Lemma cell_background r c :
  (r < 800)%nat → (c < 800)%nat → cell background r c = Some 9.
Proof.
  intros Hr Hc. unfold cell, background.
  rewrite (lookup_replicate_2 _ _ _ Hr). simpl. apply (lookup_replicate_2 _ _ _ Hc).
Qed.

Lemma cell_lt {X} h w (m : list (list X)) r c x :
  shaped h w m → cell m r c = Some x → (r < h)%nat ∧ (c < w)%nat.
Proof.
  intros [Hh Hw] Hx. unfold cell in Hx.
  destruct (m !! r) as [row|] eqn:Er; [|done]. simpl in Hx.
  pose proof (lookup_lt_Some _ _ _ Er). pose proof (lookup_lt_Some _ _ _ Hx).
  rewrite Forall_lookup in Hw. specialize (Hw _ _ Er). lia.
Qed.

(** One write: it succeeds exactly on valid indices, changes the cell
    it addresses and nothing else. *)
Lemma set_cell_Some label h w m i j m' :
  shaped h w m → set_cell label m i j = Some m' →
  ∃ r c, hits h w r c (i, j) ∧ shaped h w m' ∧
         cell m' r c = Some label ∧
         ∀ r' c', (r', c') ≠ (r, c) → cell m' r' c' = cell m r' c'.
Proof.
  intros [Hh Hw] Hset. unfold set_cell in Hset.
  destruct (py_index (length m) (- i)) as [r|] eqn:Er; [|done]. simpl in Hset.
  destruct (m !! r) as [row|] eqn:Erow; [|done]. simpl in Hset.
  destruct (py_index (length row) j) as [c|] eqn:Ec; [|done]. simpl in Hset.
  injection Hset as <-.
  assert (length row = w) as Hrow by (rewrite Forall_lookup in Hw; eauto).
  pose proof (py_index_lt _ _ _ Er). pose proof (py_index_lt _ _ _ Ec).
  exists r, c. split; [|split; [|split]].
  - unfold hits. simpl. by rewrite <- Hh, <- Hrow.
  - split; [by rewrite length_insert|].
    apply Forall_insert; [done|]. by rewrite length_insert.
  - unfold cell. rewrite list_lookup_insert_eq by done. simpl.
    by rewrite list_lookup_insert_eq.
  - intros r' c' Hne. unfold cell.
    destruct (decide (r' = r)) as [->|Hr].
    + rewrite list_lookup_insert_eq by done. rewrite Erow. simpl.
      rewrite list_lookup_insert_ne; [done|]. congruence.
    + by rewrite list_lookup_insert_ne.
Qed.

Lemma set_cell_is_Some label h w m i j r c :
  shaped h w m → hits h w r c (i, j) → is_Some (set_cell label m i j).
Proof.
  intros [Hh Hw] [Hr Hc]. simpl in *. unfold set_cell. rewrite Hh, Hr. simpl.
  pose proof (py_index_lt _ _ _ Hr) as Hlt.
  destruct (lookup_lt_is_Some_2 m r ltac:(lia)) as [row Erow]. rewrite Erow. simpl.
  assert (length row = w) as -> by (rewrite Forall_lookup in Hw; eauto).
  rewrite Hc. simpl. eauto.
Qed.

#[global] Instance hits_dec h w r c p : Decision (hits h w r c p).
Proof. unfold hits. apply _. Defined.

(** A sequence of writes of one label. *)
Lemma writes_Some label h w ps m m' :
  shaped h w m →
  foldlM (λ m p, set_cell label m p.1 p.2) ps m = Some m' →
  shaped h w m' ∧
  ∀ r c, (Exists (hits h w r c) ps → cell m' r c = Some label) ∧
         (¬ Exists (hits h w r c) ps → cell m' r c = cell m r c).
Proof.
  revert m. induction ps as [|[i j] ps IH]; intros m Hm Hf; simpl in Hf.
  - injection Hf as <-. split; [done|]. intros r c. split; [|done].
    intros Hex. by apply Exists_nil in Hex.
  - destruct (set_cell label m i j) as [m1|] eqn:E1; [|done]. simpl in Hf.
    destruct (set_cell_Some _ _ _ _ _ _ _ Hm E1) as (r0 & c0 & Hhit & Hm1 & Hset & Hrest).
    destruct (IH m1 Hm1 Hf) as [Hm' Hcells]. split; [done|].
    intros r c. destruct (Hcells r c) as [Hin Hout].
    destruct (decide (Exists (hits h w r c) ps)) as [Hex|Hex].
    + split; [intros _; by apply Hin|]. intros Hn. exfalso. apply Hn. by right.
    + rewrite (Hout Hex). split.
      * intros Hex'. apply Exists_cons in Hex' as [Hhit'|]; [|done].
        destruct Hhit as [Hr0 Hc0], Hhit' as [Hr Hc]. simpl in *.
        rewrite Hr0 in Hr. rewrite Hc0 in Hc. injection Hr as <-. injection Hc as <-.
        done.
      * intros Hn. apply Hrest. intros E. injection E as -> ->.
        apply Hn. by left.
Qed.

Lemma writes_is_Some label h w ps m :
  shaped h w m →
  Forall (λ p, ∃ r c, hits h w r c p) ps →
  is_Some (foldlM (λ m p, set_cell label m p.1 p.2) ps m).
Proof.
  intros Hm Hall. revert m Hm.
  induction Hall as [|[i j] ps (r & c & Hhit) _ IH]; intros m Hm; simpl; [eauto|].
  destruct (set_cell_is_Some label h w m i j r c Hm Hhit) as [m1 E1].
  rewrite E1. simpl. apply IH.
  by destruct (set_cell_Some _ _ _ _ _ _ _ Hm E1) as (_ & _ & _ & ? & _).
Qed.

(** One box: lines 169-171. *)
Lemma stamp_Some label rc m m' :
  shaped 800 800 m → stamp label rc m = Some m' →
  shaped 800 800 m' ∧
  ∀ r c, (in_stamp rc r c → cell m' r c = Some label) ∧
         (¬ in_stamp rc r c → cell m' r c = cell m r c).
Proof.
  intros Hm Hs. rewrite stamp_writes in Hs.
  destruct (writes_Some _ _ _ _ _ _ Hm Hs) as [Hm' Hcells]. split; [done|].
  intros r c. rewrite <- stamped_in_stamp. apply Hcells.
Qed.

Lemma in_bounds_hits rc i j :
  in_bounds rc → (i, j) ∈ writes rc → ∃ r c, hits 800 800 r c (i, j).
Proof.
  intros (Hx0 & Hx1 & Hy0 & Hy1) Hp. apply elem_of_writes in Hp as [Hi Hj].
  unfold hits. simpl.
  destruct (decide (i = 0)) as [->|Hi0].
  - exists 0%nat, (Z.to_nat j). split; [done|]. apply py_index_nonneg. lia.
  - exists (Z.to_nat (Z.of_nat 800 + - i)), (Z.to_nat j).
    split; [apply py_index_neg|apply py_index_nonneg]; lia.
Qed.

Lemma stamp_is_Some label rc m :
  shaped 800 800 m → in_bounds rc → is_Some (stamp label rc m).
Proof.
  intros Hm Hb. rewrite stamp_writes. apply (writes_is_Some _ 800 800); [done|].
  apply Forall_forall. intros [i j] Hp. by apply (in_bounds_hits rc).
Qed.

(** The loop over the boxes: a cell holds the label of the last box
    that stamps it, and what it held before when no box does. *)
Lemma raster_loop_Some (cats : list Z) (ibs : list (nat * Box)) m g :
  shaped 800 800 m →
  foldlM (λ m '(idx, bb), label ← cats !! idx; rc ← box_rect bb; stamp label rc m)
         ibs m = Some g →
  shaped 800 800 g ∧
  ∀ r c,
    (∀ n k bb label rc,
       ibs !! n = Some (k, bb) → cats !! k = Some label → box_rect bb = Some rc →
       in_stamp rc r c →
       (∀ n' k' bb' rc', (n < n')%nat → ibs !! n' = Some (k', bb') →
                         box_rect bb' = Some rc' → ¬ in_stamp rc' r c) →
       cell g r c = Some label) ∧
    ((∀ n k bb rc, ibs !! n = Some (k, bb) → box_rect bb = Some rc →
                   ¬ in_stamp rc r c) →
     cell g r c = cell m r c).
Proof.
  intros Hm. revert g. induction ibs as [|[kx bbx] ibs IH] using rev_ind; intros g Hf.
  - simpl in Hf. injection Hf as <-. split; [done|]. intros r c. split; [|done].
    intros n k bb label rc Hn. by rewrite lookup_nil in Hn.
  - rewrite foldlM_app in Hf.
    destruct (foldlM _ ibs m) as [g0|] eqn:E0; [|done]. simpl in Hf.
    destruct (cats !! kx) as [lx|] eqn:Elx; [|done]. simpl in Hf.
    destruct (box_rect bbx) as [rcx|] eqn:Ercx; [|done]. simpl in Hf.
    destruct (stamp lx rcx g0) as [g1|] eqn:E1; [|done]. simpl in Hf.
    injection Hf as <-.
    destruct (IH g0 eq_refl) as [Hg0 Hcells0].
    destruct (stamp_Some _ _ _ _ Hg0 E1) as [Hg1 Hcells1]. split; [done|].
    intros r c. destruct (Hcells0 r c) as [Hlast0 Hnone0].
    destruct (Hcells1 r c) as [Hin1 Hout1]. split.
    + intros n k bb label rc Hn Hk Hrc Hin Hlater.
      destruct (decide (n = length ibs)) as [->|Hne].
      * rewrite list_lookup_middle in Hn by done. injection Hn as <- <-.
        rewrite Elx in Hk. injection Hk as <-.
        rewrite Ercx in Hrc. injection Hrc as <-. by apply Hin1.
      * pose proof (lookup_lt_Some _ _ _ Hn) as Hlt.
        rewrite length_app in Hlt. simpl in Hlt.
        assert (n < length ibs)%nat as Hlt' by lia.
        rewrite lookup_app_l in Hn by done.
        rewrite Hout1.
        -- apply (Hlast0 n k bb label rc); try done.
           intros n' k' bb' rc' Hnn' Hn' Hrc'.
           apply (Hlater n' k' bb' rc'); [done| |done].
           rewrite lookup_app_l; [done|]. by eapply lookup_lt_Some.
        -- apply (Hlater (length ibs) kx bbx rcx); [done| |done].
           by rewrite list_lookup_middle.
    + intros Hnone. rewrite Hout1.
      * apply Hnone0. intros n k bb rc Hn Hrc.
        apply (Hnone n k bb rc); [|done].
        rewrite lookup_app_l; [done|]. by eapply lookup_lt_Some.
      * apply (Hnone (length ibs) kx bbx rcx); [|done].
        by rewrite list_lookup_middle.
Qed.

Lemma raster_loop_is_Some (cats : list Z) (ibs : list (nat * Box)) m :
  shaped 800 800 m →
  Forall (λ ib, is_Some (cats !! ib.1) ∧
                ∃ rc, box_rect ib.2 = Some rc ∧ in_bounds rc) ibs →
  is_Some (foldlM (λ m '(idx, bb),
                     label ← cats !! idx; rc ← box_rect bb; stamp label rc m)
                  ibs m).
Proof.
  intros Hm Hall. revert m Hm.
  induction Hall as [|[k bb] ibs ([label El] & rc & Erc & Hb) _ IH]; intros m Hm;
    simpl in *; [eauto|].
  rewrite El, Erc. simpl.
  destruct (stamp_is_Some label rc m Hm Hb) as [m1 E1]. rewrite E1. simpl.
  apply IH. by destruct (stamp_Some _ _ _ _ Hm E1).
Qed.

Lemma lookup_zip_seq {X} (l : list X) n k x :
  zip (seq 0 (length l)) l !! n = Some (k, x) ↔ k = n ∧ l !! n = Some x.
Proof.
  rewrite lookup_zip_with_Some. split.
  - intros (k' & x' & E & Hk & Hx). injection E as <- <-.
    apply lookup_seq in Hk as [-> _]. done.
  - intros [-> Hx]. exists n, x. split; [done|]. split; [|done].
    apply lookup_seq. split; [done|]. by eapply lookup_lt_Some.
Qed.

(** Last write wins, for every annotation that is rasterised. *)
Lemma raster_last_write_wins one_target g :
  bounding_box_to_matrix_image one_target = Some g →
  shaped 800 800 g ∧
  ∀ r c,
    (∀ n bb label rc,
       bounding_box one_target !! n = Some bb →
       category one_target !! n = Some label → box_rect bb = Some rc →
       in_stamp rc r c →
       (∀ n' bb' rc', (n < n')%nat → bounding_box one_target !! n' = Some bb' →
                      box_rect bb' = Some rc' → ¬ in_stamp rc' r c) →
       cell g r c = Some label) ∧
    ((∀ n bb rc, bounding_box one_target !! n = Some bb → box_rect bb = Some rc →
                 ¬ in_stamp rc r c) →
     (r < 800)%nat → (c < 800)%nat → cell g r c = Some 9).
Proof.
  intros Hg. unfold bounding_box_to_matrix_image in Hg.
  destruct (raster_loop_Some _ _ _ _ shaped_background Hg) as [Hsh Hcells].
  split; [done|]. intros r c. destruct (Hcells r c) as [Hlast Hnone]. split.
  - intros n bb label rc Hn Hl Hrc Hin Hlater.
    apply (Hlast n n bb label rc); try done.
    + by apply lookup_zip_seq.
    + intros n' k' bb' rc' Hnn' Hn' Hrc'. apply lookup_zip_seq in Hn' as [-> Hn'].
      by apply (Hlater n' bb' rc').
  - intros Hno Hr Hc. rewrite Hnone; [by apply cell_background|].
    intros n k bb rc Hn Hrc. apply lookup_zip_seq in Hn as [-> Hn].
    by apply (Hno n bb rc).
Qed.

Lemma raster_is_Some one_target :
  (length (bounding_box one_target) ≤ length (category one_target))%nat →
  Forall (λ bb, ∃ rc, box_rect bb = Some rc ∧ in_bounds rc) (bounding_box one_target) →
  is_Some (bounding_box_to_matrix_image one_target).
Proof.
  intros Hlen Hall. apply raster_loop_is_Some; [apply shaped_background|].
  apply Forall_lookup. intros n [k bb] Hn. apply lookup_zip_seq in Hn as [-> Hn].
  simpl. split.
  - apply lookup_lt_is_Some_2. pose proof (lookup_lt_Some _ _ _ Hn). lia.
  - rewrite Forall_lookup in Hall. by apply (Hall n).
Qed.

(** The rectangle of a box: floor of the least and ceiling of the
    greatest transformed coordinate of each row. *)
Lemma foldl_Qmin_spec (x : Q) (l : list Q) :
  (∀ y, y ∈ x :: l → (foldl Qmin x l <= y)%Q) ∧
  (∃ y, y ∈ x :: l ∧ (foldl Qmin x l == y)%Q).
Proof.
  revert x. induction l as [|z l IH]; intros x; simpl.
  - split.
    + intros y Hy. apply list_elem_of_singleton in Hy as ->. apply Qle_refl.
    + exists x. split; [apply list_elem_of_here|reflexivity].
  - destruct (IH (Qmin x z)) as [Hle (y & Hy & Heq)]. split.
    + intros y' Hy'. apply elem_of_cons in Hy' as [->|Hy'].
      * eapply Qle_trans; [apply Hle, list_elem_of_here|apply Q.le_min_l].
      * apply elem_of_cons in Hy' as [->|Hy'].
        -- eapply Qle_trans; [apply Hle, list_elem_of_here|apply Q.le_min_r].
        -- by apply Hle, list_elem_of_further.
    + apply elem_of_cons in Hy as [->|Hy].
      * destruct (Q.min_dec x z) as [E|E].
        -- exists x. split; [apply list_elem_of_here|]. by rewrite Heq.
        -- exists z. split; [apply list_elem_of_further, list_elem_of_here|].
           by rewrite Heq.
      * exists y. split; [|done]. by do 2 apply list_elem_of_further.
Qed.

Lemma foldl_Qmax_spec (x : Q) (l : list Q) :
  (∀ y, y ∈ x :: l → (y <= foldl Qmax x l)%Q) ∧
  (∃ y, y ∈ x :: l ∧ (foldl Qmax x l == y)%Q).
Proof.
  revert x. induction l as [|z l IH]; intros x; simpl.
  - split.
    + intros y Hy. apply list_elem_of_singleton in Hy as ->. apply Qle_refl.
    + exists x. split; [apply list_elem_of_here|reflexivity].
  - destruct (IH (Qmax x z)) as [Hle (y & Hy & Heq)]. split.
    + intros y' Hy'. apply elem_of_cons in Hy' as [->|Hy'].
      * eapply Qle_trans; [apply Q.le_max_l|apply Hle, list_elem_of_here].
      * apply elem_of_cons in Hy' as [->|Hy'].
        -- eapply Qle_trans; [apply Q.le_max_r|apply Hle, list_elem_of_here].
        -- by apply Hle, list_elem_of_further.
    + apply elem_of_cons in Hy as [->|Hy].
      * destruct (Q.max_dec x z) as [E|E].
        -- exists x. split; [apply list_elem_of_here|]. by rewrite Heq.
        -- exists z. split; [apply list_elem_of_further, list_elem_of_here|].
           by rewrite Heq.
      * exists y. split; [|done]. by do 2 apply list_elem_of_further.
Qed.

Lemma row_floor_ceil (row : list Q) lo hi :
  row_min (to_grid <$> row) = Some lo → row_max (to_grid <$> row) = Some hi →
  floor_ceil_of row (Qfloor lo) (Qceiling hi).
Proof.
  destruct row as [|x row]; [done|]. simpl. intros Hlo Hhi.
  injection Hlo as <-. injection Hhi as <-.
  destruct (foldl_Qmin_spec (to_grid x) (to_grid <$> row)) as [Hmin (ymin & Hymin & Emin)].
  destruct (foldl_Qmax_spec (to_grid x) (to_grid <$> row)) as [Hmax (ymax & Hymax & Emax)].
  change (to_grid x :: (to_grid <$> row)) with (to_grid <$> (x :: row)) in *.
  apply list_elem_of_fmap in Hymin as (qmin & -> & Hqmin).
  apply list_elem_of_fmap in Hymax as (qmax & -> & Hqmax).
  split; [|split].
  - intros q Hq. split.
    + eapply Qle_trans; [apply Qfloor_le|]. apply Hmin, list_elem_of_fmap. eauto.
    + eapply Qle_trans; [|apply Qle_ceiling]. apply Hmax, list_elem_of_fmap. eauto.
  - exists qmin. split; [done|]. rewrite <- Emin. apply Qlt_floor.
  - exists qmax. split; [done|]. rewrite <- Emax. apply Qceiling_lt.
Qed.

Lemma box_rect_floor_ceil bb rc :
  box_rect bb = Some rc →
  floor_ceil_of (row0 bb) (min_y rc) (max_y rc) ∧
  floor_ceil_of (row1 bb) (min_x rc) (max_x rc).
Proof.
  unfold box_rect. intros Hrc.
  destruct (row_min (to_grid <$> row0 bb)) as [lo0|] eqn:E1; [|done].
  destruct (row_min (to_grid <$> row1 bb)) as [lo1|] eqn:E2; [|done].
  destruct (row_max (to_grid <$> row0 bb)) as [hi0|] eqn:E3; [|done].
  destruct (row_max (to_grid <$> row1 bb)) as [hi1|] eqn:E4; [|done].
  simpl in Hrc. injection Hrc as <-. simpl. split; by apply row_floor_ceil.
Qed.

(** Inside the grid, row [-i] is row [800 - i], and row 0 for [i = 0]. *)
Lemma in_stamp_in_bounds rc r c :
  in_bounds rc →
  in_stamp rc r c ↔
  ∃ i, min_x rc <= i < max_x rc ∧ min_y rc <= Z.of_nat c < max_y rc ∧
       Z.of_nat r = if i =? 0 then 0 else 800 - i.
Proof.
  intros (Hx0 & Hx1 & Hy0 & Hy1). unfold in_stamp. split.
  - intros (i & j & Hi & Hj & Hr & Hc). exists i.
    rewrite py_index_nonneg in Hc by lia. injection Hc as <-.
    split; [done|]. split; [lia|].
    destruct (Z.eqb_spec i 0) as [->|Hi0].
    + simpl in Hr. injection Hr as <-. done.
    + rewrite py_index_neg in Hr by lia. injection Hr as <-. lia.
  - intros (i & Hi & Hc & Hr). exists i, (Z.of_nat c).
    split; [done|]. split; [done|]. split.
    + destruct (Z.eqb_spec i 0) as [->|Hi0].
      * rewrite py_index_nonneg by lia. f_equal. lia.
      * rewrite py_index_neg by lia. f_equal. lia.
    + rewrite py_index_nonneg by lia. f_equal. lia.
Qed.

Lemma raster_single bb label :
  bounding_box_to_matrix_image {| bounding_box := [bb]; category := [label] |} =
  rc ← box_rect bb; stamp label rc background.
Proof.
  unfold bounding_box_to_matrix_image. simpl.
  destruct (box_rect bb) as [rc|]; simpl; [|done].
  by destruct (stamp label rc background).
Qed.

(** The rectangle of rows [10, 12) and columns [5, 8), evaluated. *)
Lemma stamp_example_count :
  (g ← stamp 3 {| min_y := 5; min_x := 10; max_y := 8; max_x := 12 |} background;
   Some (count_label 3 g, count_label 9 g)) = Some (6, 800 * 800 - 6).
Proof. vm_compute. reflexivity. Qed.

(** C2: for an annotation of one box whose rectangle lies within the
    grid, bounding_box_to_matrix_image returns an 800 x 800 grid in which
    the cells of the rectangle hold the category of the box and all others
    the background 9.  The rectangle is the floor of the least and the
    ceiling of the greatest value of [coordinate * 10 + 400] on each axis;
    the cell written for [(i, j)] is row [-i], column [j]: row [800 - i],
    counted from the end, and row 0 for [i = 0].  A rectangle of rows
    [10, 12) and columns [5, 8) with category 3 gives exactly 6 cells that
    hold 3. *)
Theorem single_box_raster (bb : Box) (label : Z) (rc : Rect) :
  box_rect bb = Some rc →
  in_bounds rc →
  ∃ g,
    bounding_box_to_matrix_image {| bounding_box := [bb]; category := [label] |}
      = Some g ∧
    shaped 800 800 g ∧
    (∀ r c, (r < 800)%nat → (c < 800)%nat →
            (in_stamp rc r c → cell g r c = Some label) ∧
            (¬ in_stamp rc r c → cell g r c = Some 9)) ∧
    (∀ r c, in_stamp rc r c ↔
            ∃ i, min_x rc <= i < max_x rc ∧ min_y rc <= Z.of_nat c < max_y rc ∧
                 Z.of_nat r = if i =? 0 then 0 else 800 - i) ∧
    floor_ceil_of (row0 bb) (min_y rc) (max_y rc) ∧
    floor_ceil_of (row1 bb) (min_x rc) (max_x rc) ∧
    (rc = {| min_y := 5; min_x := 10; max_y := 8; max_x := 12 |} → label = 3 →
     count_label 3 g = 6 ∧ count_label 9 g = 800 * 800 - 6).
Proof.
  intros Hrc Hb.
  destruct (stamp_is_Some label rc background shaped_background Hb) as [g Hg].
  exists g. rewrite raster_single, Hrc. simpl. split; [exact Hg|].
  destruct (stamp_Some _ _ _ _ shaped_background Hg) as [Hsh Hcells].
  split; [exact Hsh|]. split; [|split; [|split; [|split]]].
  - intros r c Hr Hc. destruct (Hcells r c) as [Hin Hout]. split; [exact Hin|].
    intros Hn. rewrite (Hout Hn). by apply cell_background.
  - intros r c. by apply in_stamp_in_bounds.
  - by apply box_rect_floor_ceil.
  - by apply box_rect_floor_ceil.
  - intros -> ->. pose proof stamp_example_count as Hcount.
    rewrite Hg in Hcount. unfold mbind, option_bind in Hcount.
    injection Hcount as H3 H9. split; [exact H3|exact H9].
Qed.

Lemma single_box_raster_witness :
  ∃ g,
    bounding_box_to_matrix_image
      {| bounding_box := [ {| row0 := [-395 # 10; -392 # 10; -395 # 10; -392 # 10]%Q;
                              row1 := [-39 # 1; -39 # 1; -388 # 10; -388 # 10]%Q |} ];
         category := [3] |} = Some g ∧
    count_label 3 g = 6.
Proof.
  assert (Hb : in_bounds {| min_y := 5; min_x := 10; max_y := 8; max_x := 12 |})
    by (unfold in_bounds; simpl; lia).
  destruct (single_box_raster
              {| row0 := [-395 # 10; -392 # 10; -395 # 10; -392 # 10]%Q;
                 row1 := [-39 # 1; -39 # 1; -388 # 10; -388 # 10]%Q |}
              3 {| min_y := 5; min_x := 10; max_y := 8; max_x := 12 |} eq_refl Hb)
    as (g & Hg & _ & _ & _ & _ & _ & Hcount).
  exists g. split; [exact Hg|]. exact (proj1 (Hcount eq_refl eq_refl)).
Defined.

(** C5: for an annotation of two boxes whose rectangles lie within the
    grid, every cell of the rectangle of the second box holds the category
    of the second box, whatever the two categories are: in particular
    every cell of the overlap, which holds 5 when a box of category 2 is
    listed before a box of category 5.  The cells of the first rectangle
    outside the second keep the category of the first box. *)
Theorem overlap_last_write_wins (bb1 bb2 : Box) (rc1 rc2 : Rect) (label1 label2 : Z) :
  box_rect bb1 = Some rc1 → box_rect bb2 = Some rc2 →
  in_bounds rc1 → in_bounds rc2 →
  ∃ g,
    bounding_box_to_matrix_image
      {| bounding_box := [bb1; bb2]; category := [label1; label2] |} = Some g ∧
    (∀ r c, in_stamp rc1 r c → in_stamp rc2 r c → cell g r c = Some label2) ∧
    (∀ r c, in_stamp rc2 r c → cell g r c = Some label2) ∧
    (∀ r c, in_stamp rc1 r c → ¬ in_stamp rc2 r c → cell g r c = Some label1).
Proof.
  intros Hrc1 Hrc2 Hb1 Hb2.
  destruct (raster_is_Some {| bounding_box := [bb1; bb2]; category := [label1; label2] |})
    as [g Hg].
  { simpl. lia. }
  { simpl. repeat constructor; eauto. }
  exists g. split; [exact Hg|].
  destruct (raster_last_write_wins _ _ Hg) as [_ Hcells]. simpl in Hcells.
  assert (Hsecond : ∀ r c, in_stamp rc2 r c → cell g r c = Some label2).
  { intros r c Hin. destruct (Hcells r c) as [Hlast _].
    apply (Hlast 1%nat bb2 label2 rc2); try done.
    intros [|[|[|n']]] bb' rc' Hlt Hn'; simpl in Hn'; try lia; done. }
  split; [intros r c _; apply Hsecond|]. split; [exact Hsecond|].
  intros r c Hin1 Hout2. destruct (Hcells r c) as [Hlast _].
  apply (Hlast 0%nat bb1 label1 rc1); try done.
  intros [|[|n']] bb' rc' Hlt Hn' Hrc'; simpl in Hn'; try lia; try done.
  injection Hn' as <-. rewrite Hrc2 in Hrc'. by injection Hrc' as <-.
Qed.

Lemma overlap_last_write_wins_witness :
  ∃ g,
    bounding_box_to_matrix_image
      {| bounding_box :=
           [ {| row0 := [-395 # 10; -392 # 10]%Q; row1 := [-39 # 1; -388 # 10]%Q |};
             {| row0 := [-394 # 10; -39 # 1]%Q; row1 := [-389 # 10; -385 # 10]%Q |} ];
         category := [2; 5] |} = Some g ∧
    cell g 789 6 = Some 5.
Proof.
  assert (Hb1 : in_bounds {| min_y := 5; min_x := 10; max_y := 8; max_x := 12 |})
    by (unfold in_bounds; simpl; lia).
  assert (Hb2 : in_bounds {| min_y := 6; min_x := 11; max_y := 10; max_x := 15 |})
    by (unfold in_bounds; simpl; lia).
  destruct (overlap_last_write_wins
              {| row0 := [-395 # 10; -392 # 10]%Q; row1 := [-39 # 1; -388 # 10]%Q |}
              {| row0 := [-394 # 10; -39 # 1]%Q; row1 := [-389 # 10; -385 # 10]%Q |}
              {| min_y := 5; min_x := 10; max_y := 8; max_x := 12 |}
              {| min_y := 6; min_x := 11; max_y := 10; max_x := 15 |}
              2 5 eq_refl eq_refl Hb1 Hb2)
    as (g & Hg & Hoverlap & _).
  exists g. split; [exact Hg|]. apply Hoverlap.
  - exists 11, 6. simpl. repeat split; try lia; reflexivity.
  - exists 11, 6. simpl. repeat split; try lia; reflexivity.
Defined.

(** ** get_ts_for_batch_binary *)

Section Reshape.
Context {X : Type}.
Implicit Types (flat : list X).

Lemma length_reshape w flat : length (reshape w flat) = (length flat / w)%nat.
Proof. unfold reshape. by rewrite length_fmap, length_seq. Qed.

Lemma reshape_lookup w flat k :
  (k < length flat / w)%nat →
  reshape w flat !! k = Some (take w (drop (k * w) flat)).
Proof.
  intros Hk. unfold reshape. rewrite list_lookup_fmap.
  by rewrite lookup_seq_lt.
Qed.

Lemma reshape_lookup_Some w flat k row :
  reshape w flat !! k = Some row →
  (k < length flat / w)%nat ∧ row = take w (drop (k * w) flat).
Proof.
  intros Hrow. pose proof (lookup_lt_Some _ _ _ Hrow) as Hk.
  rewrite length_reshape in Hk. rewrite reshape_lookup in Hrow by done.
  injection Hrow as <-. done.
Qed.

Lemma reshape_fits w flat k :
  (0 < w)%nat → (k < length flat / w)%nat → (k * w + w ≤ length flat)%nat.
Proof.
  intros Hw Hk. pose proof (Nat.Div0.mul_div_le (length flat) w). nia.
Qed.

Lemma reshape_row_length w flat k :
  (0 < w)%nat → (k < length flat / w)%nat →
  length (take w (drop (k * w) flat)) = w.
Proof.
  intros Hw Hk. pose proof (reshape_fits w flat k Hw Hk).
  rewrite length_take, length_drop. lia.
Qed.

Lemma reshape_shaped w flat :
  (0 < w)%nat → shaped (length flat / w) w (reshape w flat).
Proof.
  intros Hw. split; [apply length_reshape|].
  apply Forall_lookup. intros k row Hrow.
  apply reshape_lookup_Some in Hrow as [Hk ->]. by apply reshape_row_length.
Qed.

Lemma reshape_cell w flat k j :
  (k < length flat / w)%nat → (j < w)%nat →
  cell (reshape w flat) k j = flat !! (k * w + j)%nat.
Proof.
  intros Hk Hj. unfold cell. rewrite reshape_lookup by done. simpl.
  rewrite lookup_take_lt by done. by rewrite lookup_drop.
Qed.
End Reshape.

(** The masks of [view(-1, 800, 800)]: one 800 x 800 array for each
    800 * 800 consecutive elements, in row-major order. *)
Lemma view_800_Some {X} (flat : list X) (M : nat) :
  length flat = (M * (800 * 800))%nat →
  ∃ masks,
    view_800 flat = Some masks ∧ length masks = M ∧
    (∀ k p, masks !! k = Some p → shaped 800 800 p) ∧
    (∀ k r c, (k < M)%nat → (r < 800)%nat → (c < 800)%nat →
              (masks !! k ≫= λ p, cell p r c)
              = flat !! ((k * 800 + r) * 800 + c)%nat).
Proof.
  intros Hlen. unfold view_800.
  assert (Hmod : Z.of_nat (length flat) mod (800 * 800) = 0).
  { replace (Z.of_nat (length flat)) with (Z.of_nat M * (800 * 800)) by lia.
    apply Z.mod_mul. lia. }
  rewrite Hmod. simpl (0 =? 0). cbv iota.
  exists (reshape 800 (reshape 800 flat)). split; [done|].
  assert (Hrows : (length flat / 800 = M * 800)%nat).
  { rewrite Hlen. symmetry. apply (Nat.div_unique _ _ _ 0); lia. }
  assert (Hgrids : (length (reshape 800 flat) / 800 = M)%nat).
  { rewrite length_reshape, Hrows. symmetry. apply (Nat.div_unique _ _ _ 0); lia. }
  split; [by rewrite length_reshape|]. split.
  - intros k p Hp. apply reshape_lookup_Some in Hp as [Hk ->].
    split; [by apply reshape_row_length; [lia|]|].
    apply Forall_lookup. intros r row Hrow.
    apply lookup_take_Some in Hrow as [Hrow _]. rewrite lookup_drop in Hrow.
    apply reshape_lookup_Some in Hrow as [Hr ->]. apply reshape_row_length; lia.
  - intros k r c Hk Hr Hc. rewrite reshape_lookup by lia. simpl.
    unfold cell. rewrite lookup_take_lt by done. rewrite lookup_drop.
    pose proof (reshape_cell 800 flat (k * 800 + r) c) as Hcell.
    unfold cell in Hcell. apply Hcell; [|done]. rewrite Hrows. lia.
Qed.

Section ThreatScoreFacts.
Context {S T : Type} (gt_half : S → bool) (compute_ts_road_map : mask → mask → T).

(** The loop of lines 128-131 scores the samples in order. *)
Lemma ts_loop_Some (predicted road : list mask) (idxs : list nat) (acc : list T) :
  Forall (λ i, (i < length predicted)%nat ∧ (i < length road)%nat) idxs →
  ∃ out,
    foldlM (λ batch_ts batch_index,
              p ← predicted !! batch_index;
              t ← road !! batch_index;
              Some (batch_ts ++ [compute_ts_road_map p t]))
           idxs acc = Some (acc ++ out) ∧
    Forall2 (λ i y, ∃ p t, predicted !! i = Some p ∧ road !! i = Some t ∧
                           y = compute_ts_road_map p t) idxs out.
Proof.
  intros Hall. revert acc.
  induction Hall as [|i idxs [Hp Ht] _ IH]; intros acc; simpl.
  - exists []. by rewrite app_nil_r.
  - destruct (lookup_lt_is_Some_2 _ _ Hp) as [p Ep].
    destruct (lookup_lt_is_Some_2 _ _ Ht) as [t Et].
    rewrite Ep, Et. simpl.
    destruct (IH (acc ++ [compute_ts_road_map p t])) as (out & Hout & HF).
    exists (compute_ts_road_map p t :: out). rewrite Hout, <- app_assoc.
    split; [done|]. constructor; [|done]. by exists p, t.
Qed.
End ThreatScoreFacts.

(** C7: for a model output of M * 800 * 800 scores and K <= M road masks,
    get_ts_for_batch_binary returns a pair: the list of K scores, the
    score of sample k being helper.compute_ts_road_map applied to the
    predicted mask k and the road mask k, and the M predicted masks, which
    are 800 x 800 and hold, at row r and column c of mask k, whether the
    score at position (k * 800 + r) * 800 + c of the output exceeds 0.5.
    The function is a value of its arguments: it has no state to change. *)
Theorem get_ts_for_batch_binary_spec {S T : Type} (gt_half : S → bool)
    (compute_ts_road_map : mask → mask → T)
    (model_output : list S) (road : list mask) (M : nat) :
  length model_output = (M * (800 * 800))%nat →
  (length road ≤ M)%nat →
  ∃ batch_ts predicted_road_map,
    get_ts_for_batch_binary gt_half compute_ts_road_map model_output road
      = Some (batch_ts, predicted_road_map) ∧
    length batch_ts = length road ∧
    (∀ k t, road !! k = Some t →
            ∃ p, predicted_road_map !! k = Some p ∧
                 batch_ts !! k = Some (compute_ts_road_map p t)) ∧
    length predicted_road_map = M ∧
    (∀ k p, predicted_road_map !! k = Some p → shaped 800 800 p) ∧
    (∀ k r c, (k < M)%nat → (r < 800)%nat → (c < 800)%nat →
              (predicted_road_map !! k ≫= λ p, cell p r c)
              = gt_half <$> model_output !! ((k * 800 + r) * 800 + c)%nat).
Proof.
  intros Hlen HK. unfold get_ts_for_batch_binary.
  destruct (view_800_Some (gt_half <$> model_output) M) as (masks & Hview & HM & Hsh & Hcells);
    [by rewrite length_fmap|].
  rewrite Hview. simpl.
  destruct (ts_loop_Some compute_ts_road_map masks road (seq 0 (length road)) [])
    as (out & Hloop & HF).
  { apply Forall_forall. intros i Hi. apply elem_of_seq in Hi. lia. }
  rewrite Hloop. simpl. exists out, masks. split; [done|].
  pose proof (Forall2_length _ _ _ HF) as Hlo. rewrite length_seq in Hlo.
  split; [done|]. split; [|split; [done|split; [done|]]].
  - intros k t Hk. pose proof (lookup_lt_Some _ _ _ Hk) as Hlt.
    destruct (Forall2_lookup_l _ _ _ k k HF) as (y & Hy & p & t' & Hp & Ht' & ->).
    { by apply lookup_seq_lt. }
    rewrite Hk in Ht'. injection Ht' as <-. by exists p.
  - intros k r c Hk Hr Hc. rewrite Hcells by done. by rewrite list_lookup_fmap.
Qed.

Lemma get_ts_for_batch_binary_spec_witness :
  ∃ batch_ts predicted_road_map,
    get_ts_for_batch_binary (λ b : bool, b) (λ p t : mask, mask_sum (logical_and p t))
                            (replicate (1 * (800 * 800)) true) [[]]
      = Some (batch_ts, predicted_road_map) ∧
    length batch_ts = 1%nat.
Proof.
  destruct (get_ts_for_batch_binary_spec
              (λ b : bool, b) (λ p t : mask, mask_sum (logical_and p t))
              (replicate (1 * (800 * 800)) true) [[]] 1
              (length_replicate _ _) (le_n 1))
    as (batch_ts & predicted_road_map & Hget & Hlen & _).
  exists batch_ts, predicted_road_map. split; [exact Hget|exact Hlen].
Defined.

(** ** evaluation *)

Section EvaluationFacts.
Context {F : Type} `{Arith F} {S Img Extra Cam Out : Type}.
Context (num_images : nat)
        (stack : list Img → option Cam)
        (model : list Cam → bool → option Out)
        (scores_of : Out → list S)
        (argmax_classes : Out → grid)
        (gt_half : S → bool)
        (compute_ts_road_map : mask → mask → F).

Local Abbreviation outputs :=
  (batch_outputs num_images stack model scores_of argmax_classes gt_half
                 compute_ts_road_map).
Local Abbreviation step :=
  (accumulate num_images stack model scores_of argmax_classes gt_half
              compute_ts_road_map).

(** The accumulators after the loop: the scores of the batches
    flattened, the predicted maps and the IoUs one for each batch. *)
Lemma accumulate_fold (data_loader : list (Batch Img Extra)) (acc : accumulators) :
  foldlM step data_loader acc =
  os ← mapM outputs data_loader;
  Some {| ts_list := ts_list acc ++ concat ((λ o, o.1.1) <$> os);
          predicted_maps := predicted_maps acc ++ ((λ o, o.1.2) <$> os);
          iou_list := iou_list acc ++ ((λ o, o.2) <$> os) |}.
Proof.
  revert acc. induction data_loader as [|b bs IH]; intros acc.
  - simpl. destruct acc. simpl. by rewrite !app_nil_r.
  - cbn [foldlM].
    assert (Hstep : step acc b =
                    o ← outputs b;
                    Some {| ts_list := ts_list acc ++ o.1.1;
                            predicted_maps := predicted_maps acc ++ [o.1.2];
                            iou_list := iou_list acc ++ [o.2] |})
      by reflexivity.
    rewrite Hstep.
    change (mapM outputs (b :: bs))
      with (o ← outputs b; os ← mapM outputs bs; Some (o :: os)).
    destruct (outputs b) as [o|]; [|done]. cbn [mbind option_bind].
    rewrite IH. destruct (mapM outputs bs) as [os|]; [|done]. simpl.
    by rewrite <- !app_assoc.
Qed.
End EvaluationFacts.

(** C8: over every data source, evaluation extends one flat list with the
    scores of the samples of each batch, appends the predicted maps of each
    batch as one entry and the mean IoU of each batch as one entry, and
    returns the mean of the flat list with its NaN entries left out, the
    list of the predicted maps and the list of the mean IoUs.  An exception
    in a batch is the exception of the whole run. *)
Theorem evaluation_accumulates {F : Type} `{Arith F} {S Img Extra Cam Out : Type}
    (num_images : nat) (stack : list Img → option Cam)
    (model : list Cam → bool → option Out) (scores_of : Out → list S)
    (argmax_classes : Out → grid) (gt_half : S → bool)
    (compute_ts_road_map : mask → mask → F)
    (data_loader : list (Batch Img Extra)) :
  evaluation num_images stack model scores_of argmax_classes gt_half
             compute_ts_road_map data_loader =
  os ← mapM (batch_outputs num_images stack model scores_of argmax_classes gt_half
                           compute_ts_road_map) data_loader;
  Some (mean (filter (λ x, is_nan x = false) (concat ((λ o, o.1.1) <$> os))),
        (λ o, o.1.2) <$> os,
        (λ o, o.2) <$> os).
Proof.
  unfold evaluation. rewrite accumulate_fold.
  destruct (mapM _ data_loader) as [os|]; simpl; [|done]. done.
Qed.


(** ** Worked examples *)

(** The example of the docstring of RandomBatchSampler. *)
Example sampler_docstring :
  let self := {| sampler := [0; 1; 2; 3; 4; 5; 6; 7; 8]; batch_size := 2;
                 drop_last := false |} in
  all_batches self = [[0; 1]; [2; 3]; [4; 5]; [6; 7]; [8]] ∧
  iter self [2; 0; 4; 1; 3]%nat = Some [[4; 5]; [0; 1]; [8]; [2; 3]; [6; 7]] ∧
  len self = Some 5.
Proof. repeat split. Qed.

Example sampler_drop_last :
  let self := {| sampler := [0; 1; 2; 3; 4; 5; 6; 7; 8]; batch_size := 2;
                 drop_last := true |} in
  all_batches self = [[0; 1]; [2; 3]; [4; 5]; [6; 7]] ∧ len self = Some 4.
Proof. repeat split. Qed.

(** Negative indices count from the end, and [-0] is [0]. *)
Example py_index_examples :
  py_index 800 (- 10) = Some 790%nat ∧ py_index 800 (- 0) = Some 0%nat ∧
  py_index 800 (- 800) = Some 0%nat ∧ py_index 800 800 = None ∧
  py_index 800 (- 801) = None.
Proof. repeat split. Qed.

(** Two 2 x 2 grids: classes 0, 1 and 3 to 8 have quotient 1, class 2 has
    3/4 and class 9 has 2/3; the mean over the 10 seen classes is 113/120. *)
Example iou_example :
  this <$> compute_bbox_matrix_iou (F:=QScore) [[0; 1]; [2; 9]] [[0; 1]; [9; 9]] 10
  = Some (113 # 120)%Q.
Proof. vm_compute. reflexivity. Qed.

(** Without a cell no class is seen and the result is the fallback 0. *)
Example iou_empty :
  this <$> compute_bbox_matrix_iou (F:=QScore) [] [] 10 = Some 0%Q.
Proof. vm_compute. reflexivity. Qed.

(** A rectangle that starts at [i = 0] writes row 0 and then, from the end,
    row 799. *)
Example stamp_row_zero :
  (g ← stamp 3 {| min_y := 0; min_x := 0; max_y := 1; max_x := 2 |} background;
   Some (cell g 0 0, cell g 799 0, cell g 1 0, count_label 3 g))
  = Some (Some 3, Some 3, Some 9, 2).
Proof. vm_compute. reflexivity. Qed.

(** A rectangle that leaves the grid raises IndexError. *)
Example stamp_out_of_range :
  stamp 3 {| min_y := 0; min_x := 800; max_y := 1; max_x := 802 |} background = None.
Proof. vm_compute. reflexivity. Qed.


(** * Further properties of the code *)

(** ** RandomBatchSampler *)

Section SamplerMore.
Context {A : Type}.
Implicit Types (self : RandomBatchSampler A).

Lemma div_ceil_Z (n b : nat) :
  (0 < b)%nat →
  Z.of_nat (div_ceil n b) = (Z.of_nat n + Z.of_nat b - 1) / Z.of_nat b.
Proof.
  intros Hb. unfold div_ceil. rewrite Nat2Z.inj_add, Nat2Z.inj_div.
  pose proof (Nat2Z.inj_mod n b) as Hmod.
  destruct (Nat.eqb_spec (n mod b) 0) as [E|E].
  - rewrite E in Hmod. simpl Z.of_nat in *.
    assert (Hb' : 0 < Z.of_nat b) by lia. revert Hmod Hb'.
    generalize (Z.of_nat n) (Z.of_nat b). intros N B Hmod HB.
    symmetry in Hmod. Z.to_euclidean_division_equations. nia.
  - assert (Hne : Z.of_nat n mod Z.of_nat b ≠ 0) by lia.
    assert (Hb' : 0 < Z.of_nat b) by lia. revert Hne Hb'.
    assert (0 <= Z.of_nat n) as Hn by lia. revert Hn.
    generalize (Z.of_nat n) (Z.of_nat b). intros N B HN Hne HB.
    change (Z.of_nat 1) with 1.
    Z.to_euclidean_division_equations. nia.
Qed.

Lemma length_partition_ref (b : nat) (keep : bool) (l : list A) :
  length (partition_ref b keep l) =
  if keep then div_ceil (length l) b else (length l / b)%nat.
Proof. unfold partition_ref. by rewrite length_fmap, length_seq. Qed.

(** The batches formed, as the loop leaves them: full batches, then the
    batch being filled when it is kept. *)
Lemma all_batches_cut self :
  0 < batch_size self →
  ∃ cs rest,
    sampler self = concat cs ++ rest ∧
    Forall (λ c, length c = Z.to_nat (batch_size self)) cs ∧
    (length rest < Z.to_nat (batch_size self))%nat ∧
    all_batches self =
      if (0 <? Z.of_nat (length rest)) && negb (drop_last self)
      then cs ++ [rest] else cs.
Proof.
  intros HB. unfold all_batches.
  pose proof (collect_invariant self (sampler self) HB) as Hinv.
  destruct (fold_left (collect_step self) (sampler self) ([], [])) as [cs rest].
  simpl in *. destruct Hinv as (Hcat & Hfull & Hlt). by exists cs, rest.
Qed.

Lemma mapM_lookup_elem_of {X} (l : list X) (idx : list nat) (ys : list X) :
  mapM (λ i, l !! i) idx = Some ys → ∀ y, y ∈ ys → y ∈ l.
Proof.
  intros Hm y Hy. apply mapM_Some in Hm.
  apply list_elem_of_lookup in Hy as [k Hk].
  destruct (Forall2_lookup_r _ _ _ _ _ Hm Hk) as (i & _ & Hi).
  apply list_elem_of_lookup. eauto.
Qed.

(** With a batch size that is not positive the test of line 33 never
    passes. *)
Lemma collect_never_full self l :
  batch_size self <= 0 →
  fold_left (collect_step self) l ([], []) = ([], l).
Proof.
  intros HB. induction l as [|idx l IH] using rev_ind; [done|].
  rewrite fold_left_app, IH. simpl. unfold collect_step. simpl.
  destruct (Z.eqb_spec (Z.of_nat (length (l ++ [idx]))) (batch_size self)) as [E|E];
    [|done].
  rewrite length_app in E. simpl in E. lia.
Qed.
End SamplerMore.

(** X1: for a positive batch size, [__len__] is the number of batches a
    traversal yields. *)
Theorem len_counts_batches {A : Type} (self : RandomBatchSampler A)
    (rand_index : list nat) (yielded : list (list A)) :
  0 < batch_size self →
  iter self rand_index = Some yielded →
  rand_index ≡ₚ seq 0 (length (all_batches self)) →
  len self = Some (Z.of_nat (length yielded)).
Proof.
  intros HB Hiter Hperm.
  destruct (mapM_lookup_Permutation (all_batches self) rand_index Hperm)
    as (ys & Hys & Hp).
  unfold iter in Hiter. rewrite Hys in Hiter. injection Hiter as <-.
  rewrite (Permutation_length Hp), (all_batches_partition self HB).
  rewrite length_partition_ref. unfold len, py_floordiv.
  destruct (Z.eqb_spec (batch_size self) 0) as [E|_]; [lia|].
  destruct (drop_last self); simpl; f_equal.
  - rewrite Nat2Z.inj_div, Z2Nat.id by lia. done.
  - rewrite div_ceil_Z by lia. by rewrite Z2Nat.id by lia.
Qed.

Lemma len_counts_batches_witness :
  len {| sampler := [0; 1; 2; 3; 4; 5; 6; 7; 8]; batch_size := 2; drop_last := false |}
  = Some (Z.of_nat (length [[4; 5]; [0; 1]; [8]; [2; 3]; [6; 7]])).
Proof.
  apply (len_counts_batches
           {| sampler := [0; 1; 2; 3; 4; 5; 6; 7; 8]; batch_size := 2;
              drop_last := false |} [2; 0; 4; 1; 3]%nat).
  - reflexivity.
  - reflexivity.
  - change ([2; 0; 4; 1; 3]%nat ≡ₚ [0; 1; 2; 3; 4]%nat).
    apply (Permutation_trans (l' := [0; 2; 4; 1; 3]%nat)); [apply perm_swap|].
    apply perm_skip.
    apply (Permutation_trans (l' := [2; 1; 4; 3]%nat));
      [apply perm_skip, perm_swap|].
    apply (Permutation_trans (l' := [1; 2; 4; 3]%nat)); [apply perm_swap|].
    do 2 apply perm_skip. apply perm_swap.
Defined.

(** X2: for a positive batch size B every batch yielded holds at least
    one and at most B indices, and exactly B when [drop_last] is set,
    whatever the order of the traversal. *)
Theorem batches_sizes {A : Type} (self : RandomBatchSampler A)
    (rand_index : list nat) (yielded : list (list A)) :
  0 < batch_size self →
  iter self rand_index = Some yielded →
  Forall (λ batch, 1 <= Z.of_nat (length batch) <= batch_size self) yielded ∧
  (drop_last self = true →
   Forall (λ batch, Z.of_nat (length batch) = batch_size self) yielded).
Proof.
  intros HB Hiter.
  destruct (all_batches_cut self HB) as (cs & rest & _ & Hfull & Hlt & Hall).
  pose proof (mapM_lookup_elem_of _ _ _ Hiter) as Hin.
  rewrite Forall_forall in Hfull.
  split.
  - apply Forall_forall. intros batch Hb. apply Hin in Hb. rewrite Hall in Hb.
    destruct (Z.ltb_spec 0 (Z.of_nat (length rest))) as [Hr|Hr],
             (drop_last self); simpl in Hb;
      try (apply Hfull in Hb; lia).
    apply elem_of_app in Hb as [Hb|Hb]; [apply Hfull in Hb; lia|].
    apply list_elem_of_singleton in Hb as ->. lia.
  - intros Hdrop. apply Forall_forall. intros batch Hb. apply Hin in Hb.
    rewrite Hall, Hdrop, andb_false_r in Hb. apply Hfull in Hb. lia.
Qed.

Lemma batches_sizes_witness :
  Forall (λ batch : list Z, 1 <= Z.of_nat (length batch) <= 2)
         [[4; 5]; [0; 1]; [8]; [2; 3]; [6; 7]].
Proof.
  exact (proj1 (batches_sizes
                  {| sampler := [0; 1; 2; 3; 4; 5; 6; 7; 8]; batch_size := 2;
                     drop_last := false |} [2; 0; 4; 1; 3]%nat _ eq_refl eq_refl)).
Defined.

(** X3: with a batch size that is zero or negative no batch is ever
    full: the whole index sequence is one batch, kept unless it is empty or
    [drop_last] is set; and [__len__] raises for a batch size of zero. *)
Theorem nonpositive_batch_size {A : Type} (self : RandomBatchSampler A) :
  batch_size self <= 0 →
  all_batches self =
    (if drop_last self then []
     else match sampler self with [] => [] | _ => [sampler self] end) ∧
  (batch_size self = 0 → len self = None).
Proof.
  intros HB. split.
  - unfold all_batches. rewrite (collect_never_full self _ HB). simpl.
    destruct (drop_last self); [by rewrite andb_false_r|].
    rewrite andb_true_r. by destruct (sampler self).
  - intros E. unfold len, py_floordiv. rewrite E. by destruct (drop_last self).
Qed.

Lemma nonpositive_batch_size_witness :
  all_batches {| sampler := [0; 1; 2]; batch_size := 0; drop_last := false |}
  = [[0; 1; 2]].
Proof.
  exact (proj1 (nonpositive_batch_size
                  {| sampler := [0; 1; 2]; batch_size := 0; drop_last := false |}
                  (Z.le_refl 0))).
Defined.

(** X4: two traversals of one sampler yield the same batches, each
    exactly once, in orders that may differ. *)
Theorem traversals_same_batches {A : Type} (self : RandomBatchSampler A)
    (rand_index1 rand_index2 : list nat) (yielded1 yielded2 : list (list A)) :
  rand_index1 ≡ₚ seq 0 (length (all_batches self)) →
  rand_index2 ≡ₚ seq 0 (length (all_batches self)) →
  iter self rand_index1 = Some yielded1 →
  iter self rand_index2 = Some yielded2 →
  yielded1 ≡ₚ yielded2 ∧ yielded1 ≡ₚ all_batches self.
Proof.
  intros Hp1 Hp2 H1 H2.
  destruct (mapM_lookup_Permutation (all_batches self) rand_index1 Hp1)
    as (ys1 & Hys1 & Hq1).
  destruct (mapM_lookup_Permutation (all_batches self) rand_index2 Hp2)
    as (ys2 & Hys2 & Hq2).
  unfold iter in *. rewrite Hys1 in H1. rewrite Hys2 in H2.
  injection H1 as <-. injection H2 as <-.
  split; [|done]. by rewrite Hq1, Hq2.
Qed.

Lemma traversals_same_batches_witness :
  [[2; 3]; [0; 1]] ≡ₚ [[0; 1]; [2; 3]].
Proof.
  refine (proj1 (traversals_same_batches
                   {| sampler := [0; 1; 2; 3]; batch_size := 2; drop_last := false |}
                   [1; 0]%nat [0; 1]%nat _ _ _ _ eq_refl eq_refl)).
  - apply perm_swap.
  - apply Permutation_refl.
Defined.

(** ** compute_bbox_matrix_iou *)

Lemma zip_with_andb_comm (r1 r2 : list bool) :
  zip_with andb r1 r2 = zip_with andb r2 r1.
Proof.
  revert r2. induction r1 as [|b1 r1 IH]; intros [|b2 r2]; simpl; try done.
  by rewrite IH, andb_comm.
Qed.

Lemma logical_and_comm (m1 m2 : mask) : logical_and m1 m2 = logical_and m2 m1.
Proof.
  unfold logical_and. revert m2.
  induction m1 as [|r1 m1 IH]; intros [|r2 m2]; simpl; try done.
  by rewrite IH, zip_with_andb_comm.
Qed.

Lemma intersect_comm g1 g2 c : intersect g1 g2 c = intersect g2 g1 c.
Proof. unfold intersect. by rewrite logical_and_comm. Qed.

Lemma union_comm g1 g2 c : union g1 g2 c = union g2 g1 c.
Proof.
  unfold union. rewrite (intersect_comm g1 g2). unfold labels_c_sum, pred_c_sum. lia.
Qed.

Lemma class_seen_comm g1 g2 c : class_seen g1 g2 c = class_seen g2 g1 c.
Proof. unfold class_seen, labels_c_sum, pred_c_sum. apply orb_comm. Qed.

Lemma fold_left_ext_fun {S X} (f g : S → X → S) (l : list X) (s : S) :
  (∀ s x, f s x = g s x) → fold_left f l s = fold_left g l s.
Proof.
  intros Hfg. revert s. induction l as [|x l IH]; intros s; simpl; [done|].
  by rewrite Hfg, IH.
Qed.

(** X5: the metric is symmetric in its two grids, in every arithmetic. *)
Theorem compute_bbox_matrix_iou_comm {F : Type} `{Arith F}
    (labels predictions : grid) (n_classes : Z) :
  compute_bbox_matrix_iou labels predictions n_classes =
  compute_bbox_matrix_iou predictions labels n_classes.
Proof.
  unfold compute_bbox_matrix_iou, iou_loop.
  rewrite (fold_left_ext_fun (iou_step labels predictions) (iou_step predictions labels));
    [done|].
  intros st c. unfold iou_step.
  by rewrite class_seen_comm, intersect_comm, union_comm.
Qed.

(** The sum of a mask [g != c] is the number of cells that do not hold
    [c]. *)
Lemma row_sum_complement (row : list Z) c :
  row_sum ((λ x, negb (x =? c)) <$> row) =
  Z.of_nat (length row) - Z.of_nat (length (filter (λ x, x = c) row)).
Proof.
  induction row as [|y row IH]; [done|].
  rewrite fmap_cons, row_sum_cons, IH.
  destruct (Z.eqb_spec y c) as [E|E].
  - rewrite filter_cons_True by done. simpl length. simpl Z.b2z. lia.
  - rewrite filter_cons_False by done. simpl length. simpl Z.b2z. lia.
Qed.

Lemma count_label_cons v row (g : grid) :
  count_label v (row :: g) =
  Z.of_nat (length (filter (λ x, x = v) row)) + count_label v g.
Proof. reflexivity. Qed.

Lemma cell_count_cons {X} (row : list X) (g : list (list X)) :
  cell_count (row :: g) = Z.of_nat (length row) + cell_count g.
Proof. reflexivity. Qed.

Lemma count_label_absent v (g : grid) : v ∉ concat g → count_label v g = 0.
Proof.
  induction g as [|row g IH]; [done|]. simpl concat. intros Hv.
  rewrite count_label_cons, IH by (intros ?; apply Hv, elem_of_app; auto).
  replace (filter (λ x, x = v) row) with (@nil Z); [done|].
  symmetry. apply length_zero_iff_nil.
  destruct (filter (λ x, x = v) row) as [|x l] eqn:E; [done|].
  exfalso. assert (Hx : x ∈ filter (λ x, x = v) row) by (rewrite E; left).
  apply list_elem_of_filter in Hx as [-> Hx]. apply Hv, elem_of_app. auto.
Qed.

(** X6: the presence count of a class is the number of cells that do
    not hold it: the cells of the grid less those that hold the class. *)
Theorem presence_is_complement (g : grid) (c : Z) :
  labels_c_sum g c = cell_count g - count_label c g ∧
  pred_c_sum g c = cell_count g - count_label c g.
Proof.
  assert (E : mask_sum (ne_mask g c) = cell_count g - count_label c g).
  { induction g as [|row g IH]; [done|].
    rewrite ne_mask_cons, mask_sum_cons, IH, row_sum_complement.
    rewrite cell_count_cons, count_label_cons. lia. }
  by split.
Qed.

Lemma row_inter_absent (r1 r2 : list Z) c :
  length r1 = length r2 → c ∉ r1 → c ∉ r2 →
  row_sum (zip_with andb ((λ x, negb (x =? c)) <$> r1) ((λ x, negb (x =? c)) <$> r2))
  = Z.of_nat (length r1).
Proof.
  revert r2. induction r1 as [|x1 r1 IH]; intros [|x2 r2] Hlen H1 H2;
    simpl in Hlen; try done.
  rewrite !fmap_cons. simpl zip_with. rewrite row_sum_cons, IH.
  - destruct (Z.eqb_spec x1 c) as [->|_]; [exfalso; apply H1; left|].
    destruct (Z.eqb_spec x2 c) as [->|_]; [exfalso; apply H2; left|].
    simpl length. simpl Z.b2z. lia.
  - lia.
  - intros ?. apply H1. by right.
  - intros ?. apply H2. by right.
Qed.

Lemma intersect_absent (g1 g2 : grid) c :
  same_shape g1 g2 → c ∉ concat g1 → c ∉ concat g2 →
  intersect g1 g2 c = cell_count g1.
Proof.
  unfold intersect, logical_and.
  induction 1 as [|r1 r2 g1 g2 Hr _ IH]; intros H1 H2; [done|].
  simpl in H1, H2. rewrite !ne_mask_cons. simpl zip_with.
  rewrite mask_sum_cons, cell_count_cons, IH, row_inter_absent; try done.
  - intros ?. apply H1, elem_of_app. auto.
  - intros ?. apply H2, elem_of_app. auto.
  - intros ?. apply H1, elem_of_app. auto.
  - intros ?. apply H2, elem_of_app. auto.
Qed.

(** X7: a class that occurs in neither of two grids of one shape that
    have a cell is seen all the same, and its two presence masks are the
    whole grid: intersection and union are the number of cells and the
    quotient added for the class is one. *)
Theorem absent_class_scores_one {F : Type} `{ArithLaws F}
    (labels predictions : grid) (c : Z) :
  same_shape labels predictions →
  0 < cell_count labels →
  c ∉ concat labels → c ∉ concat predictions →
  class_seen labels predictions c = true ∧
  intersect labels predictions c = cell_count labels ∧
  union labels predictions c = cell_count labels ∧
  fdiv (of_int (intersect labels predictions c))
       (of_int (union labels predictions c)) = of_int 1.
Proof.
  intros Hs Hne Hl Hp.
  pose proof (proj1 (presence_is_complement labels c)) as El.
  pose proof (proj2 (presence_is_complement predictions c)) as Ep.
  rewrite count_label_absent in El, Ep by done.
  rewrite <- (same_shape_cell_count _ _ Hs) in Ep.
  pose proof (intersect_absent _ _ c Hs Hl Hp) as Ei.
  assert (Eu : union labels predictions c = cell_count labels)
    by (unfold union; lia).
  split; [apply class_seen_true; lia|]. split; [done|]. split; [done|].
  rewrite Eu, Ei. by apply fdiv_diag.
Qed.

Lemma absent_class_scores_one_witness :
  class_seen [[0; 1]; [2; 9]] [[0; 1]; [9; 9]] 5 = true ∧
  intersect [[0; 1]; [2; 9]] [[0; 1]; [9; 9]] 5 = 4.
Proof.
  assert (Hs : same_shape [[0; 1]; [2; 9]] [[0; 1]; [9; 9]]) by (repeat constructor).
  assert (H5 : ∀ l : list Z, Forall (λ x, x ≠ 5) l → 5 ∉ l).
  { intros l Hl Hin. rewrite Forall_forall in Hl. by apply (Hl 5). }
  destruct (absent_class_scores_one (F:=QScore) [[0; 1]; [2; 9]] [[0; 1]; [9; 9]] 5 Hs)
    as (Hseen & Hi & _).
  - reflexivity.
  - apply H5. simpl. repeat constructor; lia.
  - apply H5. simpl. repeat constructor; lia.
  - split; [exact Hseen|exact Hi].
Defined.

(** *** Exact rational scores: the result is a number between 0 and 1 *)

Lemma this_of_int k : (this (Q2Qc (inject_Z k)) == inject_Z k)%Q.
Proof. simpl. apply Qred_correct. Qed.

Lemma qs_div_unit (a b : Z) :
  0 <= a <= b → 0 < b →
  ∃ q : Qc, qs_div (Some (Q2Qc (inject_Z a))) (Some (Q2Qc (inject_Z b))) = Some q ∧
            (0 <= this q <= 1)%Q.
Proof.
  intros Ha Hb. unfold qs_div.
  assert (Hbq : (inject_Z 0 < inject_Z b)%Q) by (by rewrite <- Zlt_Qlt).
  destruct (decide (Q2Qc (inject_Z b) = 0%Qc)) as [E|_].
  { exfalso. apply (f_equal this) in E.
    assert (Hq : (this (Q2Qc (inject_Z b)) == 0)%Q) by (rewrite E; reflexivity).
    rewrite this_of_int in Hq. rewrite Hq in Hbq. by apply Qlt_irrefl in Hbq. }
  eexists. split; [reflexivity|].
  assert (Hd : (this (Q2Qc (inject_Z a) / Q2Qc (inject_Z b))%Qc
                == inject_Z a / inject_Z b)%Q).
  { unfold Qcdiv, Qcmult, Qcinv. simpl. rewrite !Qred_correct. reflexivity. }
  rewrite Hd. split.
  - apply Qle_shift_div_l; [done|]. rewrite Qmult_0_l.
    change (inject_Z 0 <= inject_Z a)%Q. rewrite <- Zle_Qle. lia.
  - apply Qle_shift_div_r; [done|]. rewrite Qmult_1_l.
    rewrite <- Zle_Qle. lia.
Qed.

Lemma qs_div_mean (s : Qc) (k : Z) :
  0 < k → (0 <= this s <= inject_Z k)%Q →
  ∃ q : Qc, qs_div (Some s) (Some (Q2Qc (inject_Z k))) = Some q ∧
            (0 <= this q <= 1)%Q.
Proof.
  intros Hk [Hs0 Hsk]. unfold qs_div.
  assert (Hkq : (inject_Z 0 < inject_Z k)%Q) by (by rewrite <- Zlt_Qlt).
  destruct (decide (Q2Qc (inject_Z k) = 0%Qc)) as [E|_].
  { exfalso. apply (f_equal this) in E.
    assert (Hq : (this (Q2Qc (inject_Z k)) == 0)%Q) by (rewrite E; reflexivity).
    rewrite this_of_int in Hq. rewrite Hq in Hkq. by apply Qlt_irrefl in Hkq. }
  eexists. split; [reflexivity|].
  assert (Hd : (this (s / Q2Qc (inject_Z k))%Qc == this s / inject_Z k)%Q).
  { unfold Qcdiv, Qcmult, Qcinv. simpl. rewrite !Qred_correct. reflexivity. }
  rewrite Hd. split.
  - apply Qle_shift_div_l; [done|]. by rewrite Qmult_0_l.
  - apply Qle_shift_div_r; [done|]. by rewrite Qmult_1_l.
Qed.

(** The running sum is a number between 0 and the count of seen
    classes. *)
Lemma iou_fold_bounded (labels predictions : grid) cs (st : iou_state (F:=QScore)) :
  0 <= seen_classes st →
  (∃ s : Qc, mean_iou st = Some s ∧ (0 <= this s <= inject_Z (seen_classes st))%Q) →
  0 <= seen_classes (fold_left (iou_step labels predictions) cs st) ∧
  ∃ s : Qc, mean_iou (fold_left (iou_step labels predictions) cs st) = Some s ∧
            (0 <= this s
             <= inject_Z (seen_classes (fold_left (iou_step labels predictions) cs st)))%Q.
Proof.
  revert st. induction cs as [|c cs IH]; intros st Hk Hs; [done|].
  simpl fold_left. apply IH.
  - unfold iou_step. destruct (class_seen labels predictions c);
      cbn [seen_classes]; lia.
  - unfold iou_step. destruct (class_seen labels predictions c) eqn:E; [|done].
    cbn [mean_iou seen_classes].
    destruct Hs as (s & Es & Hs0 & Hsk).
    pose proof (intersect_bounds labels predictions c) as (Hi0 & Hi1 & Hi2).
    apply class_seen_true in E.
    destruct (qs_div_unit (intersect labels predictions c) (union labels predictions c))
      as (q & Eq & Hq0 & Hq1); [unfold union; lia..|].
    cbn [fadd fdiv of_int QScore_arith]. rewrite Es, Eq.
    eexists. split; [reflexivity|].
    simpl this. rewrite Qred_correct, inject_Z_plus. split.
    + rewrite <- (Qplus_0_l 0). by apply Qplus_le_compat.
    + by apply Qplus_le_compat.
Qed.


(** ** bounding_box_to_matrix_image *)

Lemma py_index_Some_range n k r :
  py_index n k = Some r → - Z.of_nat n <= k < Z.of_nat n.
Proof.
  unfold py_index. intros Hr.
  destruct (Z.leb_spec 0 k), (Z.ltb_spec k (Z.of_nat n)); simpl in Hr; try lia;
    destruct (Z.leb_spec (- Z.of_nat n) k), (Z.ltb_spec k 0); simpl in Hr;
    try lia; discriminate.
Qed.

(** X9: for every annotation that is rasterised, whatever the number of
    its boxes, the result is an 800 x 800 grid in which a cell holds the
    category of the last box, in the order of the input, whose rectangle
    stamps it, and the background 9 when no box stamps it. *)
Theorem last_box_wins (one_target : Target) (g : grid) :
  bounding_box_to_matrix_image one_target = Some g →
  shaped 800 800 g ∧
  ∀ r c,
    (∀ n bb label rc,
       bounding_box one_target !! n = Some bb →
       category one_target !! n = Some label → box_rect bb = Some rc →
       in_stamp rc r c →
       (∀ n' bb' rc', (n < n')%nat → bounding_box one_target !! n' = Some bb' →
                      box_rect bb' = Some rc' → ¬ in_stamp rc' r c) →
       cell g r c = Some label) ∧
    ((∀ n bb rc, bounding_box one_target !! n = Some bb → box_rect bb = Some rc →
                 ¬ in_stamp rc r c) →
     (r < 800)%nat → (c < 800)%nat → cell g r c = Some 9).
Proof. apply raster_last_write_wins. Qed.

Lemma last_box_wins_witness :
  ∃ g,
    bounding_box_to_matrix_image
      {| bounding_box :=
           [ {| row0 := [-395 # 10; -392 # 10]%Q; row1 := [-39 # 1; -388 # 10]%Q |};
             {| row0 := [-394 # 10; -39 # 1]%Q; row1 := [-389 # 10; -385 # 10]%Q |} ];
         category := [2; 5] |} = Some g ∧
    cell g 790 5 = Some 2.
Proof.
  destruct (raster_is_Some
              {| bounding_box :=
                   [ {| row0 := [-395 # 10; -392 # 10]%Q; row1 := [-39 # 1; -388 # 10]%Q |};
                     {| row0 := [-394 # 10; -39 # 1]%Q; row1 := [-389 # 10; -385 # 10]%Q |} ];
                 category := [2; 5] |}) as [g Hg].
  { simpl. lia. }
  { repeat constructor.
    - exists {| min_y := 5; min_x := 10; max_y := 8; max_x := 12 |}.
      split; [reflexivity|]. unfold in_bounds. simpl. lia.
    - exists {| min_y := 6; min_x := 11; max_y := 10; max_x := 15 |}.
      split; [reflexivity|]. unfold in_bounds. simpl. lia. }
  exists g. split; [exact Hg|].
  apply (proj1 (proj2 (last_box_wins _ g Hg) 790%nat 5%nat) 0%nat
               {| row0 := [-395 # 10; -392 # 10]%Q; row1 := [-39 # 1; -388 # 10]%Q |}
               2 {| min_y := 5; min_x := 10; max_y := 8; max_x := 12 |}
               eq_refl eq_refl eq_refl).
  - exists 10, 5. simpl. repeat split; try lia; reflexivity.
  - intros [|[|n']] bb' rc' Hlt Hn' Hrc'; [lia| |discriminate Hn'].
    injection Hn' as <-. vm_compute in Hrc'. injection Hrc' as <-.
    intros (i & j & Hi & Hj & Hr & Hc). cbn [min_x max_x min_y max_y] in Hi, Hj.
    destruct (py_index_Some_range _ _ _ Hr) as [Hr1 Hr2].
    rewrite py_index_neg in Hr by lia. injection Hr as Hr. lia.
Defined.

Lemma foldlM_None_at {S X} (f : S → X → option S) (l : list X) (n : nat) (x : X) (s : S) :
  l !! n = Some x → (∀ s, f s x = None) → foldlM f l s = None.
Proof.
  revert n s. induction l as [|y l IH]; intros n s Hn Hx; [by rewrite lookup_nil in Hn|].
  simpl. destruct n as [|n]; simpl in Hn.
  - injection Hn as ->. by rewrite Hx.
  - destruct (f s y); simpl; [by apply (IH n)|done].
Qed.

Lemma box_rect_None bb : box_rect bb = None ↔ row0 bb = [] ∨ row1 bb = [].
Proof.
  unfold box_rect. destruct (row0 bb) as [|x0 l0], (row1 bb) as [|x1 l1]; simpl;
    split; intros Hn; try done; auto; by destruct Hn.
Qed.

(** X10: an annotation with a box that has no category (fewer categories
    than boxes) or a box with an empty row of coordinates raises, whatever
    the other boxes are. *)
Theorem malformed_annotation_raises (one_target : Target) (n : nat) (bb : Box) :
  bounding_box one_target !! n = Some bb →
  (length (category one_target) ≤ n)%nat ∨ row0 bb = [] ∨ row1 bb = [] →
  bounding_box_to_matrix_image one_target = None.
Proof.
  intros Hn Hbad. unfold bounding_box_to_matrix_image.
  apply (foldlM_None_at _ _ n (n, bb)); [by apply lookup_zip_seq|].
  intros m. destruct Hbad as [Hlen|Hrow].
  - by rewrite (lookup_ge_None_2 _ _ Hlen).
  - destruct (category one_target !! n); simpl; [|done].
    by rewrite (proj2 (box_rect_None bb) Hrow).
Qed.

Lemma malformed_annotation_raises_witness :
  bounding_box_to_matrix_image
    {| bounding_box := [ {| row0 := [0; 1]%Q; row1 := [0; 1]%Q |};
                         {| row0 := [2; 3]%Q; row1 := [2; 3]%Q |} ];
       category := [3] |} = None.
Proof.
  apply (malformed_annotation_raises _ 1 {| row0 := [2; 3]%Q; row1 := [2; 3]%Q |}).
  - reflexivity.
  - left. simpl. lia.
Defined.

Lemma py_index_is_Some n k :
  - Z.of_nat n <= k < Z.of_nat n → is_Some (py_index n k).
Proof.
  intros Hk. destruct (decide (0 <= k)).
  - rewrite py_index_nonneg by lia. eauto.
  - rewrite py_index_neg by lia. eauto.
Qed.

(** Writes that succeed were all on valid indices. *)
Lemma writes_Some_hits label h w ps m m' :
  shaped h w m →
  foldlM (λ m p, set_cell label m p.1 p.2) ps m = Some m' →
  Forall (λ p, ∃ r c, hits h w r c p) ps.
Proof.
  revert m. induction ps as [|[i j] ps IH]; intros m Hm Hf; [constructor|].
  simpl in Hf. destruct (set_cell label m i j) as [m1|] eqn:E1; [|done].
  simpl in Hf.
  destruct (set_cell_Some _ _ _ _ _ _ _ Hm E1) as (r & c & Hhit & Hm1 & _).
  constructor; [by exists r, c|]. by apply (IH m1).
Qed.

(** X11: nothing is clamped.  A box is stamped when its rectangle is
    empty on one axis, or when every row index [-i] and column index [j]
    it visits is a valid index of an axis of 800 (so that negative columns
    and the row index [-800] wrap around); in every other case the write
    raises. *)
Theorem stamp_succeeds_iff (label : Z) (rc : Rect) (m : grid) :
  shaped 800 800 m →
  is_Some (stamp label rc m) ↔
  max_x rc <= min_x rc ∨ max_y rc <= min_y rc ∨ in_index_range rc.
Proof.
  intros Hm. rewrite stamp_writes. split.
  - intros [m' Hm'].
    destruct (decide (max_x rc <= min_x rc)) as [|Hx]; [by left|].
    destruct (decide (max_y rc <= min_y rc)) as [|Hy]; [by right; left|].
    right; right.
    pose proof (writes_Some_hits _ _ _ _ _ _ Hm Hm') as Hall.
    rewrite Forall_forall in Hall.
    assert (Hlo : (min_x rc, min_y rc) ∈ writes rc) by (apply elem_of_writes; lia).
    assert (Hhi : (max_x rc - 1, max_y rc - 1) ∈ writes rc)
      by (apply elem_of_writes; lia).
    destruct (Hall _ Hlo) as (r1 & c1 & Hr1 & Hc1).
    destruct (Hall _ Hhi) as (r2 & c2 & Hr2 & Hc2). simpl in *.
    apply py_index_Some_range in Hr1, Hc1, Hr2, Hc2.
    unfold in_index_range. lia.
  - intros Hok. apply (writes_is_Some _ 800 800); [done|].
    apply Forall_forall. intros [i j] Hp. apply elem_of_writes in Hp as [Hi Hj].
    destruct Hok as [Hx|[Hy|(Hx0 & Hx1 & Hy0 & Hy1)]]; [lia..|].
    destruct (py_index_is_Some 800 (- i)) as [r Hr]; [lia|].
    destruct (py_index_is_Some 800 j) as [c Hc]; [lia|].
    by exists r, c.
Qed.

Lemma stamp_succeeds_iff_witness :
  is_Some (stamp 3 {| min_y := - 2; min_x := 799; max_y := 1; max_x := 801 |} background).
Proof.
  apply (stamp_succeeds_iff 3 _ background shaped_background).
  right; right. unfold in_index_range. simpl. lia.
Defined.

(** *** The number of cells a box labels *)

Lemma row_count_insert (v : Z) (row : list Z) (c : nat) (x : Z) :
  row !! c = Some x → x ≠ v →
  length (filter (λ y, y = v) (<[c:=v]> row)) = S (length (filter (λ y, y = v) row)).
Proof.
  revert c. induction row as [|y row IH]; intros [|c] Hc Hx; simpl in Hc; try done.
  - injection Hc as ->. simpl. rewrite filter_cons_True by done.
    by rewrite filter_cons_False by done.
  - simpl. destruct (decide (y = v)).
    + rewrite !filter_cons_True by done. simpl. f_equal. by apply IH.
    + rewrite !filter_cons_False by done. by apply IH.
Qed.

Lemma count_label_insert (v : Z) (m : grid) (r : nat) (row row' : list Z) :
  m !! r = Some row →
  count_label v (<[r:=row']> m) =
  count_label v m - Z.of_nat (length (filter (λ y, y = v) row))
  + Z.of_nat (length (filter (λ y, y = v) row')).
Proof.
  revert r. induction m as [|row0 m IH]; intros [|r] Hr; simpl in Hr; try done.
  - injection Hr as ->. simpl insert. rewrite !count_label_cons. lia.
  - simpl insert. rewrite !count_label_cons, (IH r Hr). lia.
Qed.

(** A write on a cell that does not hold the label adds one cell of the
    label. *)
Lemma set_cell_count label h w (m m' : grid) i j r c x :
  shaped h w m → set_cell label m i j = Some m' →
  hits h w r c (i, j) → cell m r c = Some x → x ≠ label →
  count_label label m' = count_label label m + 1.
Proof.
  intros [Hh Hw] Hset [Hr Hc] Hx Hne. simpl in Hr, Hc. unfold set_cell in Hset.
  rewrite Hh, Hr in Hset. simpl in Hset. unfold cell in Hx.
  destruct (m !! r) as [row|] eqn:Erow; [|done]. simpl in Hset, Hx.
  assert (length row = w) as Hrow by (rewrite Forall_lookup in Hw; eauto).
  rewrite Hrow, Hc in Hset. simpl in Hset. injection Hset as <-.
  rewrite (count_label_insert _ _ _ row) by done.
  rewrite (row_count_insert _ _ _ x) by done. lia.
Qed.

Lemma writes_count label h w ps (m m' : grid) :
  shaped h w m →
  foldlM (λ m p, set_cell label m p.1 p.2) ps m = Some m' →
  NoDup (write_target h w <$> ps) →
  (∀ p r c, p ∈ ps → hits h w r c p → ∃ x, cell m r c = Some x ∧ x ≠ label) →
  count_label label m' = count_label label m + Z.of_nat (length ps).
Proof.
  revert m. induction ps as [|[i j] ps IH]; intros m Hm Hf Hnd Hfresh.
  - simpl in Hf. injection Hf as <-. simpl. lia.
  - simpl in Hf. destruct (set_cell label m i j) as [m1|] eqn:E1; [|done].
    simpl in Hf. rewrite fmap_cons in Hnd. apply NoDup_cons in Hnd as [Hnew Hnd].
    destruct (set_cell_Some _ _ _ _ _ _ _ Hm E1) as (r & c & Hhit & Hm1 & _ & Hframe).
    destruct (Hfresh (i, j) r c ltac:(left) Hhit) as (x & Hx & Hne).
    rewrite (IH m1 Hm1 Hf Hnd).
    + rewrite (set_cell_count _ _ _ _ _ _ _ _ _ _ Hm E1 Hhit Hx Hne).
      simpl length. lia.
    + intros p r' c' Hp Hhit'. rewrite Hframe.
      * apply (Hfresh p); [by right|done].
      * intros E. injection E as -> ->. apply Hnew.
        apply list_elem_of_fmap. exists p. split; [|done].
        destruct Hhit as [H1 H2], Hhit' as [H1' H2']. unfold write_target. simpl in *.
        by rewrite H1, H2, H1', H2'.
Qed.

Lemma filter_replicate_ne (v x : Z) (w : nat) :
  x ≠ v → filter (λ y, y = v) (replicate w x) = [].
Proof.
  intros Hne. induction w as [|w IH]; [done|].
  rewrite replicate_S. by rewrite filter_cons_False.
Qed.

Lemma count_label_replicate (v x : Z) (h w : nat) :
  x ≠ v → count_label v (replicate h (replicate w x)) = 0.
Proof.
  intros Hne. induction h as [|h IH]; [done|].
  by rewrite replicate_S, count_label_cons, IH, filter_replicate_ne.
Qed.

Lemma length_writes rc :
  length (writes rc) =
  (Z.to_nat (max_x rc - min_x rc) * Z.to_nat (max_y rc - min_y rc))%nat.
Proof.
  unfold writes. rewrite <- !py_range_length.
  generalize (py_range (min_x rc) (max_x rc)) (py_range (min_y rc) (max_y rc)).
  intros rows cols. induction rows as [|i rows IH]; [done|].
  rewrite bind_cons, length_app, IH, bind_singleton_fmap, length_fmap. simpl. lia.
Qed.

Lemma writes_NoDup rc : NoDup (writes rc).
Proof.
  unfold writes. apply NoDup_bind.
  - intros i1 i2 p _ _ H1 H2.
    apply list_elem_of_bind in H1 as (j1 & Hp1 & _).
    apply list_elem_of_bind in H2 as (j2 & Hp2 & _).
    apply list_elem_of_singleton in Hp1, Hp2. congruence.
  - intros i _. rewrite (bind_singleton_fmap (λ j, (i, j))).
    apply NoDup_fmap_2; [|apply py_range_NoDup]. intros j1 j2 E. congruence.
  - apply py_range_NoDup.
Qed.

(** Inside the grid two different index pairs address different cells. *)
Lemma in_bounds_targets_NoDup rc :
  in_bounds rc → NoDup (write_target 800 800 <$> writes rc).
Proof.
  intros (Hx0 & Hx1 & Hy0 & Hy1).
  apply NoDup_fmap_2_strong; [|apply writes_NoDup].
  intros [i1 j1] [i2 j2] H1 H2 E.
  apply elem_of_writes in H1 as [Hi1 Hj1]. apply elem_of_writes in H2 as [Hi2 Hj2].
  unfold write_target in E. cbn [fst snd] in E. injection E as Er Ec.
  rewrite (py_index_nonneg 800 j1), (py_index_nonneg 800 j2) in Ec by lia.
  injection Ec as Ec. assert (j1 = j2) as -> by lia. f_equal.
  assert (Hrow : ∀ i, 0 <= i < 800 →
                      py_index 800 (- i)
                      = Some (Z.to_nat (if i =? 0 then 0 else 800 - i))).
  { intros i Hi. destruct (Z.eqb_spec i 0) as [->|N]; [done|].
    rewrite py_index_neg by lia. f_equal; lia. }
  rewrite (Hrow i1), (Hrow i2) in Er by lia. injection Er as Er.
  destruct (Z.eqb_spec i1 0), (Z.eqb_spec i2 0); lia.
Qed.

(** X12: a single box whose rectangle lies within the grid and whose
    category is not the background 9 labels exactly as many cells as its
    rectangle has index pairs: (max_x - min_x) * (max_y - min_y). *)
Theorem single_box_area (bb : Box) (label : Z) (rc : Rect) (g : grid) :
  box_rect bb = Some rc → in_bounds rc → label ≠ 9 →
  bounding_box_to_matrix_image {| bounding_box := [bb]; category := [label] |}
    = Some g →
  count_label label g =
  Z.max 0 (max_x rc - min_x rc) * Z.max 0 (max_y rc - min_y rc).
Proof.
  intros Hrc Hb Hne Hg. rewrite raster_single, Hrc in Hg. simpl in Hg.
  rewrite stamp_writes in Hg.
  rewrite (writes_count label 800 800 (writes rc) background g shaped_background Hg).
  - unfold background. rewrite count_label_replicate by done.
    rewrite length_writes. lia.
  - by apply in_bounds_targets_NoDup.
  - intros p r c _ [Hr Hc]. exists 9. split; [|done].
    apply cell_background; by eapply py_index_lt.
Qed.

Lemma single_box_area_witness :
  ∃ g,
    bounding_box_to_matrix_image
      {| bounding_box := [ {| row0 := [-395 # 10; -392 # 10]%Q;
                              row1 := [-39 # 1; -388 # 10]%Q |} ];
         category := [3] |} = Some g ∧
    count_label 3 g = 6.
Proof.
  assert (Hb : in_bounds {| min_y := 5; min_x := 10; max_y := 8; max_x := 12 |})
    by (unfold in_bounds; simpl; lia).
  destruct (raster_is_Some
              {| bounding_box := [ {| row0 := [-395 # 10; -392 # 10]%Q;
                                      row1 := [-39 # 1; -388 # 10]%Q |} ];
                 category := [3] |}) as [g Hg].
  { simpl. lia. }
  { repeat constructor.
    exists {| min_y := 5; min_x := 10; max_y := 8; max_x := 12 |}. by split. }
  exists g. split; [exact Hg|].
  refine (single_box_area
            {| row0 := [-395 # 10; -392 # 10]%Q; row1 := [-39 # 1; -388 # 10]%Q |}
            3 {| min_y := 5; min_x := 10; max_y := 8; max_x := 12 |}
            g eq_refl Hb _ Hg).
  lia.
Defined.

(** ** The rasteriser and the metric together *)

Lemma cell_count_shaped {X} (h w : nat) (m : list (list X)) :
  shaped h w m → cell_count m = Z.of_nat h * Z.of_nat w.
Proof.
  intros [Hh Hw]. subst h. induction Hw as [|row m Hrow _ IH]; [done|].
  rewrite cell_count_cons, IH, Hrow. simpl length. lia.
Qed.

Section IouSelf.
Context {F : Type} `{ArithLaws F}.

Lemma iou_self_one (g : grid) (n_classes : Z) :
  0 < cell_count g → 2 <= n_classes < 2 ^ 53 →
  compute_bbox_matrix_iou g g n_classes = of_int 1.
Proof.
  intros Hne Hn. pose proof (iou_loop_seen_ge g g n_classes Hne) as Hge.
  unfold compute_bbox_matrix_iou.
  destruct (Z.eqb_spec (seen_classes (iou_loop g g n_classes)) 0) as [E|E]; [lia|].
  unfold iou_loop in *. rewrite iou_fold_identical.
  - apply fdiv_diag. lia.
  - lia.
  - rewrite py_range_length. lia.
Qed.
End IouSelf.

(** X13: the grid of every annotation that is rasterised, compared with
    itself over the 10 classes, has mean IoU exactly one. *)
Theorem rasterised_self_iou {F : Type} `{ArithLaws F} (one_target : Target) (g : grid) :
  bounding_box_to_matrix_image one_target = Some g →
  compute_bbox_matrix_iou g g 10 = of_int 1.
Proof.
  intros Hg. destruct (raster_last_write_wins _ _ Hg) as [Hsh _].
  apply iou_self_one; [|lia].
  rewrite (cell_count_shaped _ _ _ Hsh). lia.
Qed.

Lemma rasterised_self_iou_witness :
  compute_bbox_matrix_iou (F:=QScore) background background 10 = of_int 1.
Proof.
  exact (rasterised_self_iou (F:=QScore) {| bounding_box := []; category := [] |}
                             background eq_refl).
Defined.

(** ** get_ts_for_batch_binary and get_ts_for_batch *)

Section ThreatLoop.
Context {T : Type} (compute_ts_road_map : mask → mask → T).

(** The loop of lines 103-106 and 128-131 returns only when every index
    it visits is an index of both sequences. *)
Lemma ts_loop_Some_inv (predicted road : list mask) (idxs : list nat) (acc out : list T) :
  foldlM (λ batch_ts batch_index,
            p ← predicted !! batch_index;
            t ← road !! batch_index;
            Some (batch_ts ++ [compute_ts_road_map p t]))
         idxs acc = Some out →
  Forall (λ i, (i < length predicted)%nat ∧ (i < length road)%nat) idxs.
Proof.
  revert acc. induction idxs as [|i idxs IH]; intros acc Hf; [constructor|].
  simpl in Hf.
  destruct (predicted !! i) as [p|] eqn:Ep; [|done]. simpl in Hf.
  destruct (road !! i) as [t|] eqn:Et; [|done]. simpl in Hf.
  constructor; [|by eapply IH].
  split; by eapply lookup_lt_Some.
Qed.

Lemma ts_loop_is_Some_iff (predicted road : list mask) :
  is_Some (foldlM (λ batch_ts batch_index,
                     p ← predicted !! batch_index;
                     t ← road !! batch_index;
                     Some (batch_ts ++ [compute_ts_road_map p t]))
                  (seq 0 (length road)) []) ↔
  (length road ≤ length predicted)%nat.
Proof.
  split.
  - intros [out Hout]. apply ts_loop_Some_inv in Hout.
    rewrite Forall_forall in Hout.
    destruct (length road) as [|k] eqn:E; [lia|].
    destruct (Hout k) as [Hk _]; [apply elem_of_seq; lia|lia].
  - intros Hle.
    destruct (ts_loop_Some compute_ts_road_map predicted road (seq 0 (length road)) [])
      as (out & Hout & _); [|eauto].
    apply Forall_forall. intros i Hi. apply elem_of_seq in Hi. lia.
Qed.
End ThreatLoop.

Lemma length_view_rows {X} (flat : list X) :
  Z.of_nat (length (reshape 800 (reshape 800 flat))) =
  Z.of_nat (length flat) / (800 * 800).
Proof.
  rewrite !length_reshape, !Nat2Z.inj_div.
  change (Z.of_nat 800) with 800. rewrite Z.div_div by lia. done.
Qed.

(** X14: get_ts_for_batch_binary returns exactly when the model output
    has a multiple of 800 * 800 scores and there are no more road masks
    than output masks; otherwise the view or the indexing raises. *)
Theorem get_ts_for_batch_binary_succeeds_iff {S T : Type} (gt_half : S → bool)
    (compute_ts_road_map : mask → mask → T)
    (model_output : list S) (road : list mask) :
  is_Some (get_ts_for_batch_binary gt_half compute_ts_road_map model_output road) ↔
  Z.of_nat (length model_output) mod (800 * 800) = 0 ∧
  Z.of_nat (length road) <= Z.of_nat (length model_output) / (800 * 800).
Proof.
  unfold get_ts_for_batch_binary, view_800. rewrite length_fmap.
  destruct (Z.eqb_spec (Z.of_nat (length model_output) mod (800 * 800)) 0) as [E|E].
  - simpl. rewrite <- (length_fmap gt_half model_output), <- length_view_rows.
    rewrite <- Nat2Z.inj_le, <- (ts_loop_is_Some_iff compute_ts_road_map).
    split.
    + intros [r Hr]. split; [by rewrite length_fmap|].
      destruct (foldlM _ _ _); [eauto|done].
    + intros [_ [out Hout]]. rewrite Hout. simpl. eauto.
  - simpl. split; [intros [r Hr]; done|]. intros [E' _]. done.
Qed.

(** X15: get_ts_for_batch, given the class indices that the arg-max over
    dimension 1 returns, predicts road where the index is not 0; it
    returns one score for each road mask, the score of sample k being
    helper.compute_ts_road_map on predicted mask k and road mask k, when
    there are no more road masks than samples, and raises when there are
    more. *)
Theorem get_ts_for_batch_spec {Out T : Type}
    (argmax_dim1 : Out → option (list grid))
    (compute_ts_road_map : mask → mask → T)
    (model_output : Out) (road : list mask) (indices : list grid) :
  argmax_dim1 model_output = Some indices →
  ((length road ≤ length indices)%nat →
   ∃ batch_ts,
     get_ts_for_batch argmax_dim1 compute_ts_road_map model_output road
       = Some (batch_ts, to_bool_tensor <$> indices) ∧
     length batch_ts = length road ∧
     ∀ k t, road !! k = Some t →
            ∃ g, indices !! k = Some g ∧
                 batch_ts !! k = Some (compute_ts_road_map (to_bool_tensor g) t)) ∧
  ((length indices < length road)%nat →
   get_ts_for_batch argmax_dim1 compute_ts_road_map model_output road = None) ∧
  (∀ g r c, cell (to_bool_tensor g) r c = (λ k, negb (k =? 0)) <$> cell g r c).
Proof.
  intros Harg. unfold get_ts_for_batch. rewrite Harg. simpl. split; [|split].
  - intros Hle.
    destruct (ts_loop_Some compute_ts_road_map (to_bool_tensor <$> indices) road
                (seq 0 (length road)) []) as (out & Hout & HF).
    { apply Forall_forall. intros i Hi. apply elem_of_seq in Hi.
      rewrite length_fmap. lia. }
    rewrite Hout. simpl. exists out. split; [done|].
    pose proof (Forall2_length _ _ _ HF) as Hlo. rewrite length_seq in Hlo.
    split; [done|]. intros k t Hk. pose proof (lookup_lt_Some _ _ _ Hk) as Hlt.
    destruct (Forall2_lookup_l _ _ _ k k HF) as (y & Hy & p & t' & Hp & Ht' & ->).
    { by apply lookup_seq_lt. }
    rewrite Hk in Ht'. injection Ht' as <-.
    rewrite list_lookup_fmap in Hp.
    destruct (indices !! k) as [g|]; [|done]. simpl in Hp. injection Hp as <-.
    by exists g.
  - intros Hlt.
    destruct (foldlM _ (seq 0 (length road)) []) as [out|] eqn:E; [|done].
    exfalso.
    assert (Hs : (length road ≤ length (to_bool_tensor <$> indices))%nat).
    { apply (ts_loop_is_Some_iff compute_ts_road_map). rewrite E. eauto. }
    rewrite length_fmap in Hs. lia.
  - intros g r c. unfold cell, to_bool_tensor, ne_mask.
    rewrite list_lookup_fmap. destruct (g !! r) as [row|]; [|done]. simpl.
    by rewrite list_lookup_fmap.
Qed.

Lemma get_ts_for_batch_spec_witness :
  ∃ batch_ts,
    get_ts_for_batch (λ out : list grid, Some out)
                     (λ p t : mask, mask_sum (logical_and p t))
                     [[[0; 2]; [1; 0]]] [[[true; true]; [true; true]]]
    = Some (batch_ts, [[[false; true]; [true; false]]]) ∧
    length batch_ts = 1%nat.
Proof.
  destruct (proj1 (get_ts_for_batch_spec (λ out : list grid, Some out)
                     (λ p t : mask, mask_sum (logical_and p t))
                     [[[0; 2]; [1; 0]]] [[[true; true]; [true; true]]]
                     [[[0; 2]; [1; 0]]] eq_refl) (le_n 1))
    as (batch_ts & Hget & Hlen & _).
  exists batch_ts. split; [exact Hget|exact Hlen].
Defined.

(** ** evaluation *)

Section EvaluationMore.
Context {F : Type} `{Arith F} {S Img Extra Cam Out : Type}.
Context (num_images : nat)
        (stack : list Img → option Cam)
        (model : list Cam → bool → option Out)
        (scores_of : Out → list S)
        (argmax_classes : Out → grid)
        (gt_half : S → bool)
        (compute_ts_road_map : mask → mask → F).

Local Abbreviation outputs :=
  (batch_outputs num_images stack model scores_of argmax_classes gt_half
                 compute_ts_road_map).
Local Abbreviation eval :=
  (evaluation num_images stack model scores_of argmax_classes gt_half
              compute_ts_road_map).

Lemma evaluation_None (data_loader : list (Batch Img Extra)) :
  eval data_loader = None ↔ ∃ b, b ∈ data_loader ∧ outputs b = None.
Proof.
  unfold evaluation. rewrite accumulate_fold.
  rewrite <- Exists_exists, <- mapM_None.
  destruct (mapM outputs data_loader); simpl; split; done.
Qed.

(** A sample with fewer camera images than [num_images] raises at
    line 71. *)
Lemma batch_outputs_short_sample (b : Batch Img Extra) (imgs : list Img) :
  imgs ∈ sample b → (length imgs < num_images)%nat → outputs b = None.
Proof.
  intros Hin Hlen. unfold batch_outputs.
  assert (Hcam : mapM (λ i, imgs0 ← mapM (λ batch : list Img, batch !! i) (sample b);
                            stack imgs0) (seq 0 num_images) = None).
  { apply mapM_None, Exists_exists. exists (length imgs).
    split; [apply elem_of_seq; lia|].
    assert (Hnone : mapM (λ batch : list Img, batch !! length imgs) (sample b) = None).
    { apply mapM_None, Exists_exists. exists imgs. split; [done|].
      by apply lookup_ge_None_2. }
    by rewrite Hnone. }
  by rewrite Hcam.
Qed.
End EvaluationMore.

(** X16: evaluation is all or nothing: it raises exactly when one of the
    batches of the data source raises, and returns no partial result. *)
Theorem evaluation_all_or_nothing {F : Type} `{Arith F} {S Img Extra Cam Out : Type}
    (num_images : nat) (stack : list Img → option Cam)
    (model : list Cam → bool → option Out) (scores_of : Out → list S)
    (argmax_classes : Out → grid) (gt_half : S → bool)
    (compute_ts_road_map : mask → mask → F)
    (data_loader : list (Batch Img Extra)) :
  evaluation num_images stack model scores_of argmax_classes gt_half
             compute_ts_road_map data_loader = None ↔
  ∃ b, b ∈ data_loader ∧
       batch_outputs num_images stack model scores_of argmax_classes gt_half
                     compute_ts_road_map b = None.
Proof. apply evaluation_None. Qed.

(** X17: a batch one of whose samples has fewer camera images than
    [num_images] aborts the evaluation of every data source that holds
    it. *)
Theorem evaluation_short_sample {F : Type} `{Arith F} {S Img Extra Cam Out : Type}
    (num_images : nat) (stack : list Img → option Cam)
    (model : list Cam → bool → option Out) (scores_of : Out → list S)
    (argmax_classes : Out → grid) (gt_half : S → bool)
    (compute_ts_road_map : mask → mask → F)
    (data_loader : list (Batch Img Extra)) (b : Batch Img Extra) (imgs : list Img) :
  b ∈ data_loader → imgs ∈ sample b → (length imgs < num_images)%nat →
  evaluation num_images stack model scores_of argmax_classes gt_half
             compute_ts_road_map data_loader = None.
Proof.
  intros Hb Hin Hlen. apply evaluation_None. exists b. split; [done|].
  by apply (batch_outputs_short_sample _ _ _ _ _ _ _ b imgs).
Qed.

Lemma evaluation_short_sample_witness :
  evaluation (F:=QScore) (S:=bool) (Img:=nat) (Extra:=unit) (Cam:=list nat)
             (Out:=list bool)
             3 (λ imgs, Some imgs) (λ _ _, Some []) (λ out, out) (λ _, [])
             (λ b, b) (λ _ _, of_int 0)
             [ {| sample := [[1; 2; 3]; [4; 5]]%nat;
                  target := {| bounding_box := []; category := [] |};
                  road_image := []; extra := () |} ] = None.
Proof.
  apply (evaluation_short_sample (F:=QScore) 3 (λ imgs, Some imgs) (λ _ _, Some [])
           (λ out : list bool, out) (λ _, []) (λ b : bool, b) (λ _ _, of_int 0) _
           {| sample := [[1; 2; 3]; [4; 5]]%nat;
              target := {| bounding_box := []; category := [] |};
              road_image := []; extra := () |} [4; 5]%nat).
  - apply list_elem_of_here.
  - simpl. apply list_elem_of_further, list_elem_of_here.
  - simpl. lia.
Defined.

(** ** combine_six_to_one *)

Section Tensor2Facts.
Context {X : Type}.
Implicit Types (m : list (list X)) (t : tensor2 X).

Lemma shaped_lookup h w m r row : shaped h w m → m !! r = Some row → length row = w.
Proof. intros [_ Hw] Hr. rewrite Forall_lookup in Hw. eauto. Qed.

Lemma shaped_zip_app h w1 w2 m1 m2 :
  shaped h w1 m1 → shaped h w2 m2 → shaped h (w1 + w2) (zip_with app m1 m2).
Proof.
  intros H1 H2. split.
  - rewrite length_zip_with. destruct H1, H2. lia.
  - apply Forall_lookup. intros r row Hrow. rewrite lookup_zip_with in Hrow.
    destruct (m1 !! r) as [r1|] eqn:E1; [|done]. simpl in Hrow.
    destruct (m2 !! r) as [r2|] eqn:E2; [|done]. simpl in Hrow.
    injection Hrow as <-. rewrite length_app.
    by rewrite (shaped_lookup _ _ _ _ _ H1 E1), (shaped_lookup _ _ _ _ _ H2 E2).
Qed.

Lemma cell_zip_app_l h w1 w2 m1 m2 r c :
  shaped h w1 m1 → shaped h w2 m2 → (r < h)%nat → (c < w1)%nat →
  cell (zip_with app m1 m2) r c = cell m1 r c.
Proof.
  intros H1 H2 Hr Hc. unfold cell. rewrite lookup_zip_with.
  destruct (lookup_lt_is_Some_2 m1 r) as [r1 E1]; [destruct H1; lia|].
  destruct (lookup_lt_is_Some_2 m2 r) as [r2 E2]; [destruct H2; lia|].
  rewrite E1, E2. simpl. apply lookup_app_l.
  by rewrite (shaped_lookup _ _ _ _ _ H1 E1).
Qed.

Lemma cell_zip_app_r h w1 w2 m1 m2 r c :
  shaped h w1 m1 → shaped h w2 m2 → (r < h)%nat →
  cell (zip_with app m1 m2) r (w1 + c) = cell m2 r c.
Proof.
  intros H1 H2 Hr. unfold cell. rewrite lookup_zip_with.
  destruct (lookup_lt_is_Some_2 m1 r) as [r1 E1]; [destruct H1; lia|].
  destruct (lookup_lt_is_Some_2 m2 r) as [r2 E2]; [destruct H2; lia|].
  rewrite E1, E2. simpl. rewrite lookup_app_r.
  - rewrite (shaped_lookup _ _ _ _ _ H1 E1). f_equal. lia.
  - rewrite (shaped_lookup _ _ _ _ _ H1 E1). lia.
Qed.

Lemma shaped_app h1 h2 w m1 m2 :
  shaped h1 w m1 → shaped h2 w m2 → shaped (h1 + h2) w (m1 ++ m2).
Proof.
  intros [? ?] [? ?]. split; [rewrite length_app; lia|]. by apply Forall_app.
Qed.

(** Flipping both dimensions. *)
Lemma shaped_flip h w m : shaped h w m → shaped h w (reverse (reverse <$> m)).
Proof.
  intros [Hh Hw]. split; [by rewrite length_reverse, length_fmap|].
  apply Forall_reverse, Forall_fmap. eapply Forall_impl; [exact Hw|].
  intros row Hrow. simpl. by rewrite length_reverse.
Qed.

Lemma cell_flip h w m r c :
  shaped h w m → (r < h)%nat → (c < w)%nat →
  cell (reverse (reverse <$> m)) r c = cell m (h - S r) (w - S c).
Proof.
  intros Hm Hr Hc. pose proof Hm as [Hh Hw]. unfold cell.
  rewrite reverse_lookup by (rewrite length_fmap; lia).
  rewrite length_fmap, Hh, list_lookup_fmap.
  destruct (lookup_lt_is_Some_2 m (h - S r)) as [row E]; [lia|].
  rewrite E. simpl. pose proof (shaped_lookup _ _ _ _ _ Hm E) as Hrow.
  rewrite reverse_lookup by lia. by rewrite Hrow.
Qed.

(** The rotation. *)
Lemma omap_cons_Some_list {A Y} (f : A → option Y) (a : A) (l : list A) (b : Y) :
  f a = Some b → omap f (a :: l) = b :: omap f l.
Proof.
  intros E.
  change (omap f (a :: l))
    with (match f a with Some y => y :: omap f l | None => omap f l end).
  by rewrite E.
Qed.

Lemma omap_column (rows : list (list X)) (i : nat) :
  Forall (λ row, (i < length row)%nat) rows →
  length (omap (λ row : list X, row !! i) rows) = length rows ∧
  ∀ j, omap (λ row : list X, row !! i) rows !! j = rows !! j ≫= λ row, row !! i.
Proof.
  induction 1 as [|row rows Hrow _ [IHlen IH]]; [split; [done|by intros []]|].
  destruct (lookup_lt_is_Some_2 row i Hrow) as [x Ex].
  rewrite (omap_cons_Some_list _ _ _ _ Ex).
  split; [exact (f_equal S IHlen)|].
  intros [|j]; [|apply IH].
  change (Some x = row !! i). by rewrite Ex.
Qed.

Lemma shaped_rot h w t :
  t_width t = w → shaped h w (t_rows t) → shaped w h (t_rows (rot90_3 t)).
Proof.
  intros Ew [Hh Hw]. unfold rot90_3. simpl. rewrite Ew. split.
  - by rewrite length_fmap, length_seq.
  - apply Forall_fmap, Forall_forall. intros i Hi. apply elem_of_seq in Hi. simpl.
    destruct (omap_column (reverse (t_rows t)) i) as [Hlen _].
    { apply Forall_reverse. eapply Forall_impl; [exact Hw|]. simpl. lia. }
    by rewrite Hlen, length_reverse.
Qed.

Lemma cell_rot h w t i j :
  t_width t = w → shaped h w (t_rows t) → (i < w)%nat → (j < h)%nat →
  cell (t_rows (rot90_3 t)) i j = cell (t_rows t) (h - S j) i.
Proof.
  intros Ew [Hh Hw] Hi Hj. unfold rot90_3, cell. simpl. rewrite Ew.
  rewrite list_lookup_fmap, lookup_seq_lt by done. simpl.
  destruct (omap_column (reverse (t_rows t)) i) as [_ Hcol].
  { apply Forall_reverse. eapply Forall_impl; [exact Hw|]. simpl. lia. }
  rewrite Hcol, reverse_lookup by lia. by rewrite Hh.
Qed.
End Tensor2Facts.

Section CombineFacts.
Context {X : Type}.
Implicit Types (m : list (list X)) (s : tensor2 X).

Lemma cell_app_l m1 m2 r c :
  (r < length m1)%nat → cell (m1 ++ m2) r c = cell m1 r c.
Proof. intros Hr. unfold cell. by rewrite lookup_app_l. Qed.

Lemma cell_app_r m1 m2 r c :
  cell (m1 ++ m2) (length m1 + r) c = cell m2 r c.
Proof.
  unfold cell. rewrite lookup_app_r by lia.
  by replace (length m1 + r - length m1)%nat with r by lia.
Qed.

(** Three arrays side by side. *)
Lemma cell_three h w m0 m1 m2 (a r x : nat) mk :
  shaped h w m0 → shaped h w m1 → shaped h w m2 →
  [m0; m1; m2] !! a = Some mk → (r < h)%nat → (x < w)%nat →
  cell (zip_with app (zip_with app m0 m1) m2) r (a * w + x) = cell mk r x.
Proof.
  intros H0 H1 H2 Ha Hr Hx.
  pose proof (shaped_zip_app _ _ _ _ _ H0 H1) as H01.
  destruct a as [|[|[|a]]]; simpl in Ha; try done; injection Ha as <-.
  - rewrite (cell_zip_app_l h (w + w) w) by (done || lia).
    by rewrite (cell_zip_app_l h w w) by (done || lia).
  - replace (1 * w + x)%nat with (w + x)%nat by lia.
    rewrite (cell_zip_app_l h (w + w) w) by (done || lia).
    by rewrite (cell_zip_app_r h w w).
  - replace (2 * w + x)%nat with ((w + w) + x)%nat by lia.
    by rewrite (cell_zip_app_r h (w + w) w).
Qed.
End CombineFacts.

(** X18: six samples of h rows and w columns are laid out in an array
    of 3 * w rows and 2 * h columns.  Row r, column x of sample a (0, 1 or
    2) is at row a * w + x, column 2 * h - 1 - r; row r, column x of
    sample 3 + a is at row a * w + (w - 1 - x), column r. *)
Theorem combine_six_layout {X : Type} (s0 s1 s2 s3 s4 s5 : tensor2 X) (h w : nat) :
  Forall (λ s, t_width s = w ∧ shaped h w (t_rows s)) [s0; s1; s2; s3; s4; s5] →
  ∃ out,
    combine_six_to_one [s0; s1; s2; s3; s4; s5] = Some out ∧
    t_width out = (2 * h)%nat ∧
    shaped (3 * w) (2 * h) (t_rows out) ∧
    ∀ a r x top bottom,
      [s0; s1; s2] !! a = Some top → [s3; s4; s5] !! a = Some bottom →
      (r < h)%nat → (x < w)%nat →
      cell (t_rows out) (a * w + x) (2 * h - S r) = cell (t_rows top) r x ∧
      cell (t_rows out) (a * w + (w - S x)) r = cell (t_rows bottom) r x.
Proof.
  intros Hall.
  apply Forall_cons in Hall as [[E0 S0] Hall].
  apply Forall_cons in Hall as [[E1 S1] Hall].
  apply Forall_cons in Hall as [[E2 S2] Hall].
  apply Forall_cons in Hall as [[E3 S3] Hall].
  apply Forall_cons in Hall as [[E4 S4] Hall].
  apply Forall_cons in Hall as [[E5 S5] _].
  assert (Hh : ∀ s : tensor2 X, shaped h w (t_rows s) → t_height s = h)
    by (by intros s [? _]).
  assert (Hhf : ∀ s : tensor2 X, shaped h w (t_rows s) → t_height (flip s) = h).
  { intros s Hs. by destruct (shaped_flip _ _ _ Hs). }
  set (top := {| t_width := w + w + w;
                 t_rows := zip_with app (zip_with app (t_rows s0) (t_rows s1))
                                    (t_rows s2) |}).
  set (bottom := {| t_width := w + w + w;
                    t_rows := zip_with app
                                (zip_with app (t_rows (flip s3)) (t_rows (flip s4)))
                                (t_rows (flip s5)) |}).
  assert (Htop : shaped h (w + w + w) (t_rows top))
    by (simpl; repeat apply shaped_zip_app; done).
  assert (Hbot : shaped h (w + w + w) (t_rows bottom)).
  { simpl. repeat apply shaped_zip_app; by apply shaped_flip. }
  set (full := {| t_width := w + w + w; t_rows := t_rows top ++ t_rows bottom |}).
  assert (Hfull : shaped (h + h) (w + w + w) (t_rows full))
    by (by apply shaped_app).
  assert (Ecat1 : cat_last [s0; s1; s2] = Some top).
  { unfold cat_last. simpl foldlM.
    rewrite decide_True by (by rewrite !Hh). simpl mbind.
    rewrite decide_True.
    - unfold top. simpl t_width. simpl t_rows. by rewrite E0, E1, E2.
    - change (length (zip_with app (t_rows s0) (t_rows s1)) = length (t_rows s2)).
      rewrite length_zip_with. destruct S0 as [-> _], S1 as [-> _], S2 as [-> _]. lia. }
  assert (Ecat2 : cat_last [flip s3; flip s4; flip s5] = Some bottom).
  { pose proof (Hhf s3 S3) as L3. pose proof (Hhf s4 S4) as L4.
    pose proof (Hhf s5 S5) as L5. unfold t_height in L3, L4, L5.
    unfold cat_last. simpl foldlM.
    rewrite decide_True by (unfold t_height; by rewrite L3, L4). simpl mbind.
    rewrite decide_True.
    - unfold bottom. simpl t_width. by rewrite E3, E4, E5.
    - change (length (zip_with app (t_rows (flip s3)) (t_rows (flip s4)))
              = length (t_rows (flip s5))).
      rewrite length_zip_with, L3, L4, L5. lia. }
  exists (rot90_3 full). unfold combine_six_to_one.
  change (take 3 [s0; s1; s2; s3; s4; s5]) with [s0; s1; s2].
  change (flip <$> drop 3 [s0; s1; s2; s3; s4; s5]) with [flip s3; flip s4; flip s5].
  rewrite Ecat1, Ecat2. simpl mbind. unfold cat_rows. simpl foldlM.
  rewrite decide_True by done. simpl mbind. fold full.
  split; [done|].
  pose proof (shaped_rot (h + h) (w + w + w) full eq_refl Hfull) as Hout.
  split.
  { change (length (t_rows full) = (2 * h)%nat). destruct Hfull as [-> _]. lia. }
  split.
  { replace (3 * w)%nat with (w + w + w)%nat by lia.
    by replace (2 * h)%nat with (h + h)%nat by lia. }
  intros a r x st sb Ha Hb Hr Hx.
  assert (Ha3 : (a < 3)%nat) by (apply lookup_lt_Some in Ha; simpl in Ha; lia).
  split.
  - rewrite (cell_rot (h + h) (w + w + w)) by (done || nia).
    replace (h + h - S (2 * h - S r))%nat with r by lia.
    change (t_rows full) with (t_rows top ++ t_rows bottom).
    rewrite cell_app_l by (destruct Htop; lia).
    apply (cell_three h w (t_rows s0) (t_rows s1) (t_rows s2)); try done.
    destruct a as [|[|[|a]]]; simpl in Ha |- *; try done; by injection Ha as <-.
  - rewrite (cell_rot (h + h) (w + w + w)) by (done || nia).
    replace (h + h - S r)%nat with (length (t_rows top) + (h - S r))%nat
      by (destruct Htop; lia).
    change (t_rows full) with (t_rows top ++ t_rows bottom).
    rewrite cell_app_r.
    change (t_rows bottom)
      with (zip_with app (zip_with app (t_rows (flip s3)) (t_rows (flip s4)))
                     (t_rows (flip s5))).
    rewrite (cell_three h w (t_rows (flip s3)) (t_rows (flip s4)) (t_rows (flip s5))
               a (h - S r) (w - S x) (t_rows (flip sb)));
      try (by apply shaped_flip); try lia.
    + assert (Hsb : shaped h w (t_rows sb)).
      { destruct a as [|[|[|a]]]; simpl in Hb; try done; by injection Hb as <-. }
      simpl t_rows. rewrite (cell_flip h w) by (done || lia).
      f_equal; lia.
    + destruct a as [|[|[|a]]]; simpl in Hb |- *; try done; by injection Hb as <-.
Qed.

Lemma combine_six_layout_witness :
  ∃ out,
    combine_six_to_one
      [ Tensor2 3 [[0; 1; 2]; [10; 11; 12]]; Tensor2 3 [[100; 101; 102]; [110; 111; 112]];
        Tensor2 3 [[200; 201; 202]; [210; 211; 212]];
        Tensor2 3 [[300; 301; 302]; [310; 311; 312]];
        Tensor2 3 [[400; 401; 402]; [410; 411; 412]];
        Tensor2 3 [[500; 501; 502]; [510; 511; 512]] ] = Some out ∧
    t_width out = 4%nat.
Proof.
  destruct (combine_six_layout
              (Tensor2 3 [[0; 1; 2]; [10; 11; 12]])
              (Tensor2 3 [[100; 101; 102]; [110; 111; 112]])
              (Tensor2 3 [[200; 201; 202]; [210; 211; 212]])
              (Tensor2 3 [[300; 301; 302]; [310; 311; 312]])
              (Tensor2 3 [[400; 401; 402]; [410; 411; 412]])
              (Tensor2 3 [[500; 501; 502]; [510; 511; 512]]) 2 3)
    as (out & Hout & Hw & _).
  - repeat (apply Forall_cons; split;
            [split; [reflexivity|split; [reflexivity|repeat constructor]]|]).
    apply Forall_nil_2.
  - exists out. split; [exact Hout|exact Hw].
Defined.

(** X19: with three samples or fewer nothing is left for the second
    row, and the concatenation of an empty list raises. *)
Theorem combine_needs_second_row {X : Type} (samples : list (tensor2 X)) :
  (length samples ≤ 3)%nat → combine_six_to_one samples = None.
Proof.
  intros Hlen. unfold combine_six_to_one.
  rewrite (drop_ge samples 3 Hlen). simpl.
  by destruct (cat_last (take 3 samples)).
Qed.

Lemma combine_needs_second_row_witness :
  combine_six_to_one [ Tensor2 1 [[1]]; Tensor2 1 [[2]]; Tensor2 1 [[3]] ] = None.
Proof.
  apply (combine_needs_second_row [ Tensor2 1 [[1]]; Tensor2 1 [[2]]; Tensor2 1 [[3]] ]).
  simpl. lia.
Defined.
